(** * The complex Poincare disk of geomstats, in exact real arithmetic

    Shallow embedding of [geomstats/geometry/complex_poincare_disk.py].

    Conventions of the embedding.
    - A [float64] is read as a real number of [R], a [complex128] as a pair
      of reals.  Rounding, overflow and signed zeros are outside this
      model: a statement on it is about the formulas the code evaluates,
      in exact arithmetic.
    - numpy does not raise on a division by zero or on a logarithm outside
      its domain: it produces an infinity or a NaN.  A computation in which
      that happens is modelled by [None]; [Some v] is a finite value
      reached through finite values only.  The operations that can leave
      the finite numbers ([/] and [gs.log]) are the checked ones of section
      "Finite values".
    - Where a statement turns on the rounding of float64 itself, the
      expression at stake is also given on the binary64 numbers of the
      kernel, in the module [Float64].
    - [gs.atol], the tolerance constant of the numeric backend, is not part
      of the file under study: it is a parameter [gs_atol] of everything
      that reads it. *)

From Stdlib Require Import Reals Lra Lia List Bool Field.
From Stdlib Require Floats.
Import ListNotations.

Open Scope R_scope.

(** The exponential of the reals, [exp] being the exponential map of the
    metric below. *)
Abbreviation Rexp := Rtrigo_def.exp (only parsing).

(** * Complex numbers *)

Module Cplx.

Definition C : Type := (R * R)%type.

Definition Re (z : C) : R := fst z.
Definition Im (z : C) : R := snd z.

Definition RtoC (x : R) : C := (x, 0).
Definition C0 : C := RtoC 0.
Definition C1 : C := RtoC 1.
(** Python's [1j]. *)
Definition Ci : C := (0, 1).

Definition Cadd (z w : C) : C := (Re z + Re w, Im z + Im w).
Definition Copp (z : C) : C := (- Re z, - Im z).
Definition Csub (z w : C) : C := (Re z - Re w, Im z - Im w).
Definition Cmul (z w : C) : C :=
  (Re z * Re w - Im z * Im w, Re z * Im w + Im z * Re w).
(** [gs.conj] *)
Definition Cconj (z : C) : C := (Re z, - Im z).
(** Squared modulus. *)
Definition Cnorm2 (z : C) : R := Re z * Re z + Im z * Im z.
(** [gs.abs] on a complex number. *)
Definition Cabs (z : C) : R := sqrt (Cnorm2 z).
Definition Cinv (z : C) : C := (Re z / Cnorm2 z, - Im z / Cnorm2 z).
Definition Cdiv (z w : C) : C := Cmul z (Cinv w).
(** [gs.exp] on a complex number. *)
Definition Cexp (z : C) : C := (exp (Re z) * cos (Im z), exp (Re z) * sin (Im z)).

(** [arctan2 y x], the angle in (-pi, pi] of the point (x, y); 0 at the
    origin, as numpy has it. *)
Definition arctan2 (y x : R) : R :=
  if Rlt_dec 0 x then atan (y / x)
  else if Rlt_dec x 0 then
    (if Rle_dec 0 y then atan (y / x) + PI else atan (y / x) - PI)
  else if Rlt_dec 0 y then PI / 2
  else if Rlt_dec y 0 then - (PI / 2)
  else 0.

(** [gs.angle] *)
Definition angle (z : C) : R := arctan2 (Im z) (Re z).

Declare Scope C_scope.
Delimit Scope C_scope with C.
Bind Scope C_scope with C.
Infix "+" := Cadd : C_scope.
Infix "-" := Csub : C_scope.
Infix "*" := Cmul : C_scope.
Infix "/" := Cdiv : C_scope.
Notation "- z" := (Copp z) : C_scope.

Definition C_eq_dec (z w : C) : {z = w} + {z <> w}.
Proof.
  destruct z as [a b], w as [c d].
  destruct (Req_dec_T a c) as [->|Hac].
  - destruct (Req_dec_T b d) as [->|Hbd].
    + left; reflexivity.
    + right; intros H; apply Hbd; congruence.
  - right; intros H; apply Hac; congruence.
Defined.

End Cplx.

Import Cplx.

(** * Finite values

    The operations of numpy that can produce an infinity or a NaN from
    finite operands: a division, whose divisor can be zero, and the
    logarithm, defined on the positive numbers.  [None] stands for such an
    outcome; it propagates to the result of the computation. *)

Module Fin.

(** Real [x / y]. *)
Definition fdiv (x y : R) : option R :=
  if Req_dec_T y 0 then None else Some (x / y).

(** Complex [z / w]. *)
Definition cdiv (z w : C) : option C :=
  if C_eq_dec w C0 then None else Some (z / w)%C.

(** [gs.log] on a real number. *)
Definition flog (x : R) : option R :=
  if Rlt_dec 0 x then Some (ln x) else None.

Definition bind {A B : Type} (m : option A) (k : A -> option B) : option B :=
  match m with
  | Some a => k a
  | None => None
  end.

Fixpoint mapM {A B : Type} (f : A -> option B) (l : list A) : option (list B) :=
  match l with
  | [] => Some []
  | a :: l' =>
      bind (f a) (fun b => bind (mapM f l') (fun bs => Some (b :: bs)))
  end.

End Fin.

Import Fin.

Notation "x <- m ;; k" := (bind m (fun x => k))
  (at level 61, m at next level, right associativity).

(** [x < y] as a boolean, the elementwise comparison of two floats. *)
Definition Rltb (x y : R) : bool := if Rlt_dec x y then true else false.

(** * Arrays *)

Module NDArray.

(** A numpy array: its shape and its components in row-major order. *)
Record ndarray (A : Type) : Type := mk_ndarray {
  shape : list nat;
  data : list A
}.
Arguments mk_ndarray {A} _ _.
Arguments shape {A} _.
Arguments data {A} _.

(** Number of components of an array of the given shape. *)
Definition size_of (sh : list nat) : nat := fold_right Nat.mul 1%nat sh.

Definition well_shaped {A : Type} (a : ndarray A) : Prop :=
  length (data a) = size_of (shape a).

(** The components of [a[i]], the [i]-th entry along the first axis. *)
Definition entry {A : Type} (a : ndarray A) (i : nat) : list A :=
  let stride := size_of (tl (shape a)) in
  firstn stride (skipn (i * stride) (data a)).

End NDArray.

Import NDArray.

(** * [class ComplexPoincareDisk] *)

Module ComplexPoincareDisk.

(** [belongs(point, atol)].  [None] is the [IndexError] of [point_shape[0]]
    on an array of rank 0. *)
Definition belongs (point : ndarray C) (atol : R) : option (list bool) :=
  let point_shape := shape point in
  let is_scalar := (length point_shape =? 1)%nat in
  let is_scalar :=
    is_scalar || ((length point_shape =? 2)%nat && (nth 1 point_shape 0 =? 1)%nat) in
  match point_shape with
  | [] => None
  | n :: _ =>
      let has_modulus_lower_than_one :=
        map (fun i_point => forallb (fun z => Rltb (Cabs z) 1) (entry point i_point))
            (seq 0 n) in
      Some (map (fun b => is_scalar && b) has_modulus_lower_than_one)
  end.

Section WithTolerance.

(** [gs.atol] *)
Variable gs_atol : R.

(** [projection] at one component: the [gs.where] selects the rescaled
    point where the modulus reaches [1 - gs.atol]. *)
Definition projection_at (point : C) : option C :=
  if Rle_dec (1 - gs_atol) (Cabs point) then
    c <- fdiv (1 - gs_atol) (Cabs point) ;;
    Some (RtoC c * point)%C
  else Some point.

(** [projection(point)] *)
Definition projection (point : ndarray C) : option (ndarray C) :=
  projected <- mapM projection_at (data point) ;;
  Some (mk_ndarray (shape point) projected).

(** The state of the random generator: the uniform draws of [0, 1) still
    to come. *)
Definition rng : Type := nat -> R.

(** [gs.random.rand( *size)]: an array of draws, and the generator after
    them. *)
Definition rand (size : list nat) (g : rng) : ndarray R * rng :=
  let n := size_of size in
  (mk_ndarray size (map g (seq 0 n)), fun i => g (n + i)%nat).

(** [random_point(n_samples, bound)], threading the generator. *)
Definition random_point (n_samples : nat) (bound : R) (g : rng)
  : option (ndarray C) * rng :=
  let size := if (n_samples =? 1)%nat then [1%nat] else [n_samples; 1%nat] in
  let (re_part, g) := rand size g in
  let samples := map RtoC (data re_part) in
  let (im_part, g) := rand size g in
  let samples :=
    map (fun '(z, y) => z + Ci * RtoC y)%C (combine samples (data im_part)) in
  let samples := map (fun z => z - ((1 / 2)%R, (1 / 2)%R))%C samples in
  let samples := map (fun z => z / RtoC 2)%C samples in
  let samples := map (fun z => z * RtoC (1 - gs_atol))%C samples in
  let samples := map (fun z => z * RtoC bound)%C samples in
  (projection (mk_ndarray size samples), g).

End WithTolerance.

End ComplexPoincareDisk.

(** * [class ComplexPoincareDiskMetric]

    Every operation of the metric is an elementwise expression on arrays of
    shape [..., 1].  It is embedded at one component: two points, or a point
    and a tangent vector.  What the code does around the expression only
    rearranges components: [gs.reshape] flattens the result, and in [exp]
    [gs.to_ndarray] and the product by [gs.ones] replicate a single point
    along a batch; on single points they change nothing. *)

Module ComplexPoincareDiskMetric.

Section WithScale.

(** [gs.atol], the default of the [atol] arguments. *)
Variable gs_atol : R.
(** [self.scale] *)
Variable scale : R.

(** [inner_product_matrix(base_point)] *)
Definition inner_product_matrix (base_point : C) : option C :=
  inner_prod_mat <- fdiv 1 ((1 - Cabs base_point ^ 2) ^ 2) ;;
  let inner_prod_mat := RtoC inner_prod_mat in
  Some (inner_prod_mat * RtoC (scale ^ 2))%C.

(** [inner_product(tangent_vec_a, tangent_vec_b, base_point)] *)
Definition inner_product (tangent_vec_a tangent_vec_b base_point : C) : option C :=
  inner_product_matrix <- inner_product_matrix base_point ;;
  Some (Cconj tangent_vec_a * inner_product_matrix * tangent_vec_b)%C.

(** [squared_norm(vector, base_point)] *)
Definition squared_norm (vector base_point : C) : option R :=
  sq_norm <- inner_product vector vector base_point ;;
  Some (Re sq_norm).

(** [exp(tangent_vec, base_point)], a static method: it reads neither the
    scale nor the tolerance. *)
Definition exp (tangent_vec base_point : C) : option C :=
  let theta := RtoC (angle tangent_vec) in
  s <- fdiv (2 * Cabs tangent_vec) (1 - Cabs base_point ^ 2) ;;
  let num := base_point in
  let exp_i_theta := Cexp (Ci * theta) in
  let exp_minus_s := RtoC (Rexp (- s)) in
  let num := (num + exp_i_theta)%C in
  let num := (num + (base_point - exp_i_theta) * exp_minus_s)%C in
  let den := C1 in
  let den := (den + Cconj base_point * exp_i_theta)%C in
  let den := (den + (C1 - Cconj base_point * exp_i_theta) * exp_minus_s)%C in
  cdiv num den.

(** [_tau(point_a, point_b, atol)], a static method. *)
Definition _tau (point_a point_b : C) (atol : R) : option R :=
  let num := Cabs (point_a - point_b) in
  let den := Cabs (C1 - point_a * Cconj point_b) in
  let den := Rmax den atol in
  delta <- fdiv num den ;;
  let delta := Rmin delta (1 - atol) in
  ratio <- fdiv (1 + delta) (1 - delta) ;;
  l <- flog ratio ;;
  Some (1 / 2 * l).

(** [log(point, base_point)]; [_tau] is called with its default tolerance. *)
Definition log (point base_point : C) : option C :=
  log <- _tau base_point point gs_atol ;;
  let log := RtoC log in
  let angle :=
    angle (point - base_point) - angle (C1 - Cconj base_point * point) in
  let angle := RtoC angle in
  let log := (log * Cexp (Ci * angle))%C in
  let log := (log * RtoC (1 - Cabs base_point ^ 2))%C in
  Some log.

(** [squared_dist(point_a, point_b, atol)]; [gs.real] is the identity on
    the real array that [_tau] returns. *)
Definition squared_dist (point_a point_b : C) (atol : R) : option R :=
  sq_dist <- _tau point_a point_b atol ;;
  let sq_dist := sq_dist ^ 2 in
  Some (sq_dist * scale ^ 2).

(** [dist(point_a, point_b, atol)] *)
Definition dist (point_a point_b : C) (atol : R) : option R :=
  dist <- _tau point_a point_b atol ;;
  Some (dist * scale).

End WithScale.

End ComplexPoincareDiskMetric.

(** * [_tau] on float64

    The lines of [_tau] up to the argument of [gs.log], on the binary64
    numbers of the kernel: the operations round as those of numpy do. *)

Module Float64.

Import PrimFloat.
Local Open Scope float_scope.






End Float64.

(** * Closed forms used in the statements *)

(** The clamped ratio that [_tau] passes to the logarithm. *)
Definition delta (point_a point_b : C) (atol : R) : R :=
  Rmin (Cabs (point_a - point_b) / Rmax (Cabs (C1 - point_a * Cconj point_b)) atol)
       (1 - atol).

(** The inverse hyperbolic tangent. *)
Definition artanh (x : R) : R := 1 / 2 * ln ((1 + x) / (1 - x)).

(** The hyperbolic tangent. *)
Definition tanh_ (x : R) : R :=
  (1 - Rexp (- (2 * x))) / (1 + Rexp (- (2 * x))).

(** The quotient that [exp] returns, from the base point [b], the unit
    vector [u = exp(1j * theta)] and [E = exp(-s)]. *)
Definition exp_value (u b : C) (E : R) : C :=
  ((b + u + (b - u) * RtoC E) /
   (C1 + Cconj b * u + (C1 - Cconj b * u) * RtoC E))%C.

(** The point that [projection] returns for one component. *)
Definition projected (gs_atol : R) (point : C) : C :=
  if Rle_dec (1 - gs_atol) (Cabs point)
  then (RtoC ((1 - gs_atol) / Cabs point) * point)%C
  else point.


(** The point that [random_point] builds from the two draws [x] and [y],
    before its projection. *)
Definition sample (gs_atol bound x y : R) : C :=
  ((1 - gs_atol) * bound / 2 * (x - 1 / 2), (1 - gs_atol) * bound / 2 * (y - 1 / 2)).

(** The shapes that [belongs] accepts: rank 1, or rank 2 with a second
    dimension of 1. *)
Definition accepted_shape (sh : list nat) : Prop :=
  length sh = 1%nat \/ (length sh = 2%nat /\ nth 1 sh 0%nat = 1%nat).

(** * Facts on complex numbers *)

Module CplxFacts.

Lemma C_eq (z w : C) : Re z = Re w -> Im z = Im w -> z = w.
Proof. destruct z, w; simpl; intros -> ->; reflexivity. Qed.


Lemma Cnorm2_nonneg (z : C) : 0 <= Cnorm2 z.
Proof. unfold Cnorm2; nra. Qed.

Lemma Cnorm2_eq_0 (z : C) : Cnorm2 z = 0 -> z = C0.
Proof.
  destruct z as [a b]; unfold Cnorm2, C0, RtoC; simpl; intros H.
  assert (a = 0) by nra. assert (b = 0) by nra. subst; reflexivity.
Qed.

Lemma Cnorm2_pos (z : C) : z <> C0 -> 0 < Cnorm2 z.
Proof.
  intros Hz. destruct (Rle_lt_or_eq_dec _ _ (Cnorm2_nonneg z)) as [H|H]; auto.
  exfalso; apply Hz, Cnorm2_eq_0; auto.
Qed.

Lemma C_ring_theory : ring_theory C0 C1 Cadd Cmul Csub Copp eq.
Proof.
  constructor; intros; apply C_eq; unfold C0, C1, RtoC; simpl; ring.
Qed.

Lemma C_field_theory : field_theory C0 C1 Cadd Cmul Csub Copp Cdiv Cinv eq.
Proof.
  constructor.
  - exact C_ring_theory.
  - unfold C1, C0, RtoC; intros H; injection H; lra.
  - reflexivity.
  - intros z Hz. pose proof (Cnorm2_pos z Hz) as Hp.
    apply C_eq; unfold C1, RtoC, Cmul, Cinv; simpl; unfold Cnorm2 in *; field; lra.
Qed.

Add Field C_field : C_field_theory.

(** ** The embedding of the reals *)

Lemma RtoC_inj (x y : R) : RtoC x = RtoC y -> x = y.
Proof. unfold RtoC; congruence. Qed.

Lemma RtoC_add (x y : R) : RtoC (x + y) = (RtoC x + RtoC y)%C.
Proof. apply C_eq; simpl; ring. Qed.

Lemma RtoC_sub (x y : R) : RtoC (x - y) = (RtoC x - RtoC y)%C.
Proof. apply C_eq; simpl; ring. Qed.

Lemma RtoC_opp (x : R) : RtoC (- x) = (- RtoC x)%C.
Proof. apply C_eq; simpl; ring. Qed.

Lemma RtoC_mul (x y : R) : RtoC (x * y) = (RtoC x * RtoC y)%C.
Proof. apply C_eq; simpl; ring. Qed.

Lemma RtoC_neq_0 (x : R) : x <> 0 -> RtoC x <> C0.
Proof. intros Hx H; apply Hx, RtoC_inj, H. Qed.

Lemma RtoC_inv (x : R) : x <> 0 -> RtoC (/ x) = Cinv (RtoC x).
Proof.
  intros Hx. apply C_eq; unfold Cinv, Cnorm2; simpl; field; auto.
Qed.

Lemma RtoC_div (x y : R) : y <> 0 -> RtoC (x / y) = (RtoC x / RtoC y)%C.
Proof.
  intros Hy. unfold Rdiv, Cdiv. rewrite RtoC_mul, RtoC_inv; auto.
Qed.

Lemma Cmul_RtoC_l (c : R) (z : C) : (RtoC c * z)%C = (c * Re z, c * Im z).
Proof. apply C_eq; simpl; ring. Qed.

Lemma Cmul_RtoC_r (c : R) (z : C) : (z * RtoC c)%C = (Re z * c, Im z * c).
Proof. apply C_eq; simpl; ring. Qed.

(** ** Conjugate and modulus *)

Lemma Cconj_add (z w : C) : Cconj (z + w) = (Cconj z + Cconj w)%C.
Proof. apply C_eq; simpl; ring. Qed.

Lemma Cconj_sub (z w : C) : Cconj (z - w) = (Cconj z - Cconj w)%C.
Proof. apply C_eq; simpl; ring. Qed.

Lemma Cconj_mul (z w : C) : Cconj (z * w) = (Cconj z * Cconj w)%C.
Proof. apply C_eq; simpl; ring. Qed.

Lemma Cconj_conj (z : C) : Cconj (Cconj z) = z.
Proof. apply C_eq; simpl; ring. Qed.

Lemma Cconj_RtoC (x : R) : Cconj (RtoC x) = RtoC x.
Proof. apply C_eq; simpl; ring. Qed.

Lemma Cmul_conj (z : C) : (z * Cconj z)%C = RtoC (Cnorm2 z).
Proof. apply C_eq; unfold Cnorm2; simpl; ring. Qed.

Lemma Cnorm2_mul (z w : C) : Cnorm2 (z * w) = Cnorm2 z * Cnorm2 w.
Proof. unfold Cnorm2; simpl; ring. Qed.

Lemma Cnorm2_conj (z : C) : Cnorm2 (Cconj z) = Cnorm2 z.
Proof. unfold Cnorm2; simpl; ring. Qed.

Lemma Cnorm2_RtoC (x : R) : Cnorm2 (RtoC x) = x * x.
Proof. unfold Cnorm2; simpl; ring. Qed.

Lemma Cabs_nonneg (z : C) : 0 <= Cabs z.
Proof. apply sqrt_pos. Qed.

Lemma Cabs_sqr (z : C) : Cabs z * Cabs z = Cnorm2 z.
Proof. apply sqrt_sqrt, Cnorm2_nonneg. Qed.

Lemma Cabs_unique (z : C) (r : R) : 0 <= r -> r * r = Cnorm2 z -> Cabs z = r.
Proof.
  intros Hr H. unfold Cabs. rewrite <- H. apply sqrt_square; auto.
Qed.

Lemma Cabs_0 : Cabs C0 = 0.
Proof. apply Cabs_unique; [lra | unfold Cnorm2; simpl; ring]. Qed.

Lemma Cabs_eq_0 (z : C) : Cabs z = 0 -> z = C0.
Proof.
  intros H. apply Cnorm2_eq_0. rewrite <- Cabs_sqr, H; ring.
Qed.

Lemma Cabs_pos (z : C) : z <> C0 -> 0 < Cabs z.
Proof.
  intros Hz. destruct (Rle_lt_or_eq_dec _ _ (Cabs_nonneg z)) as [H|H]; auto.
  exfalso; apply Hz, Cabs_eq_0; auto.
Qed.

Lemma Cabs_neq_0 (z : C) : Cabs z <> 0 -> z <> C0.
Proof. intros H ->. apply H, Cabs_0. Qed.

Lemma Cabs_mul (z w : C) : Cabs (z * w) = Cabs z * Cabs w.
Proof.
  apply Cabs_unique.
  - apply Rmult_le_pos; apply Cabs_nonneg.
  - rewrite Cnorm2_mul, <- !Cabs_sqr; ring.
Qed.

Lemma Cabs_conj (z : C) : Cabs (Cconj z) = Cabs z.
Proof. unfold Cabs; rewrite Cnorm2_conj; reflexivity. Qed.

Lemma Cabs_sub_sym (z w : C) : Cabs (z - w) = Cabs (w - z).
Proof. unfold Cabs, Cnorm2; simpl; f_equal; ring. Qed.

Lemma Cabs_RtoC (x : R) : 0 <= x -> Cabs (RtoC x) = x.
Proof. intros Hx; apply Cabs_unique; auto. rewrite Cnorm2_RtoC; ring. Qed.

Lemma Cabs_1 : Cabs C1 = 1.
Proof. apply Cabs_RtoC; lra. Qed.

Lemma Cabs_scale (c : R) (z : C) : 0 <= c -> Cabs (RtoC c * z) = c * Cabs z.
Proof. intros Hc. rewrite Cabs_mul, Cabs_RtoC; auto. Qed.

Lemma Cabs_lt_1_iff (z : C) : Cabs z < 1 <-> Cnorm2 z < 1.
Proof.
  pose proof (Cabs_nonneg z). pose proof (Cabs_sqr z). split; intros; nra.
Qed.

(** ** Angle and the complex exponential *)

Lemma Cexp_i (theta : R) : Cexp (Ci * RtoC theta) = (cos theta, sin theta).
Proof.
  unfold Cexp; simpl.
  replace (0 * theta - 1 * 0) with 0 by ring.
  replace (0 * 0 + 1 * theta) with theta by ring.
  rewrite exp_0. apply C_eq; simpl; ring.
Qed.

Lemma Cnorm2_Cexp_i (theta : R) : Cnorm2 (Cexp (Ci * RtoC theta)) = 1.
Proof.
  rewrite Cexp_i. unfold Cnorm2; simpl.
  pose proof (sin2_cos2 theta) as H. unfold Rsqr in H. lra.
Qed.

Lemma Cabs_Cexp_i (theta : R) : Cabs (Cexp (Ci * RtoC theta)) = 1.
Proof. apply Cabs_unique; [lra | rewrite Cnorm2_Cexp_i; ring]. Qed.

Lemma Cexp_i_sub (a b : R) :
  Cexp (Ci * RtoC (a - b)) =
  (Cexp (Ci * RtoC a) * Cconj (Cexp (Ci * RtoC b)))%C.
Proof.
  rewrite !Cexp_i. apply C_eq; simpl.
  - rewrite cos_minus; ring.
  - rewrite sin_minus; ring.
Qed.

Lemma sqrt_one_plus_sqr (x y r : R) :
  0 < x -> 0 < r -> r * r = x * x + y * y -> sqrt (1 + (y / x)²) = r / x.
Proof.
  intros Hx Hr H. apply sqrt_lem_1.
  - unfold Rsqr. apply Rplus_le_le_0_compat; [lra | nra].
  - apply Rlt_le, Rdiv_lt_0_compat; auto.
  - unfold Rsqr. replace (r / x * (r / x)) with (r * r / (x * x)) by (field; lra).
    rewrite H. field; lra.
Qed.

Lemma cos_sin_atan_pos (x y r : R) :
  0 < x -> 0 < r -> r * r = x * x + y * y ->
  cos (atan (y / x)) = x / r /\ sin (atan (y / x)) = y / r.
Proof.
  intros Hx Hr H. rewrite cos_atan, sin_atan.
  rewrite (sqrt_one_plus_sqr x y r Hx Hr H). split; field; lra.
Qed.

Lemma cos_sin_atan_neg (x y r : R) :
  x < 0 -> 0 < r -> r * r = x * x + y * y ->
  cos (atan (y / x)) = - x / r /\ sin (atan (y / x)) = - y / r.
Proof.
  intros Hx Hr H.
  replace (y / x) with ((- y) / (- x)) by (field; lra).
  apply cos_sin_atan_pos; lra.
Qed.

(** Cosine and sine of the angle of a point other than the origin. *)
Lemma arctan2_cos_sin (y x r : R) :
  0 < r -> r * r = x * x + y * y ->
  cos (arctan2 y x) = x / r /\ sin (arctan2 y x) = y / r.
Proof.
  intros Hr H. unfold arctan2.
  destruct (Rlt_dec 0 x) as [Hx|Hx].
  { apply cos_sin_atan_pos; auto. }
  destruct (Rlt_dec x 0) as [Hx'|Hx'].
  { destruct (cos_sin_atan_neg x y r Hx' Hr H) as [Hc Hs].
    destruct (Rle_dec 0 y) as [Hy|Hy].
    - rewrite neg_cos, neg_sin, Hc, Hs; split; field; lra.
    - rewrite cos_minus, sin_minus, cos_PI, sin_PI, Hc, Hs; split; field; lra. }
  assert (x = 0) by lra; subst x.
  destruct (Rlt_dec 0 y) as [Hy|Hy].
  { assert (r = y) by nra; subst r.
    rewrite cos_PI2, sin_PI2; split; field; lra. }
  destruct (Rlt_dec y 0) as [Hy'|Hy'].
  { assert (r = - y) by nra; subst r.
    rewrite cos_neg, sin_neg, cos_PI2, sin_PI2; split; field; lra. }
  exfalso. assert (y = 0) by lra; subst y. nra.
Qed.

(** [exp(1j * angle(z))] is the unit vector of [z]. *)
Lemma Cexp_i_angle (z : C) :
  z <> C0 -> Cexp (Ci * RtoC (angle z)) = (z / RtoC (Cabs z))%C.
Proof.
  intros Hz. pose proof (Cabs_pos z Hz) as Hr.
  destruct (arctan2_cos_sin (Im z) (Re z) (Cabs z) Hr) as [Hc Hs].
  { rewrite Cabs_sqr; reflexivity. }
  rewrite Cexp_i. unfold angle. rewrite Hc, Hs.
  apply C_eq; unfold Cdiv, Cinv, Cnorm2; simpl; field; lra.
Qed.

Lemma angle_0 : angle C0 = 0.
Proof.
  unfold angle, arctan2; simpl.
  repeat (destruct (Rlt_dec _ _); try lra).
Qed.

Lemma arctan2_scale (c y x : R) :
  0 < c -> arctan2 (c * y) (c * x) = arctan2 y x.
Proof.
  intros Hc. unfold arctan2.
  destruct (Rlt_dec 0 x) as [Hx|Hx].
  { destruct (Rlt_dec 0 (c * x)) as [_|Hn]; [ | exfalso; nra].
    f_equal; field; lra. }
  destruct (Rlt_dec 0 (c * x)) as [Hp|_]; [exfalso; nra | ].
  destruct (Rlt_dec x 0) as [Hx'|Hx'].
  { destruct (Rlt_dec (c * x) 0) as [_|Hn]; [ | exfalso; nra].
    replace (c * y / (c * x)) with (y / x) by (field; lra).
    destruct (Rle_dec 0 y) as [Hy|Hy];
      destruct (Rle_dec 0 (c * y)) as [Hcy|Hcy]; auto; exfalso; nra. }
  destruct (Rlt_dec (c * x) 0) as [Hp|_]; [exfalso; nra | ].
  destruct (Rlt_dec 0 y) as [Hy|Hy];
    destruct (Rlt_dec 0 (c * y)) as [Hcy|Hcy]; auto; try (exfalso; nra).
  destruct (Rlt_dec y 0) as [Hy'|Hy'];
    destruct (Rlt_dec (c * y) 0) as [Hcy'|Hcy']; auto; exfalso; nra.
Qed.

(** Scaling by a positive real keeps the angle. *)
Lemma angle_scale (c : R) (z : C) : 0 < c -> angle (RtoC c * z) = angle z.
Proof.
  intros Hc. rewrite Cmul_RtoC_l. unfold angle; simpl. apply arctan2_scale; auto.
Qed.

End CplxFacts.

Import CplxFacts.

(** * Facts on the checked operations *)

Lemma fdiv_some (x y : R) : y <> 0 -> fdiv x y = Some (x / y).
Proof. intros Hy. unfold fdiv. destruct (Req_dec_T y 0); [contradiction | reflexivity]. Qed.

Lemma fdiv_none (x : R) : fdiv x 0 = None.
Proof. unfold fdiv. destruct (Req_dec_T 0 0); [reflexivity | contradiction]. Qed.

Lemma cdiv_some (z w : C) : w <> C0 -> cdiv z w = Some (z / w)%C.
Proof. intros Hw. unfold cdiv. destruct (C_eq_dec w C0); [contradiction | reflexivity]. Qed.

Lemma flog_some (x : R) : 0 < x -> flog x = Some (ln x).
Proof. intros Hx. unfold flog. destruct (Rlt_dec 0 x); [reflexivity | contradiction]. Qed.

Lemma Rltb_true (x y : R) : Rltb x y = true <-> x < y.
Proof. unfold Rltb. destruct (Rlt_dec x y); split; auto; discriminate. Qed.

Lemma mapM_some {A B : Type} (f : A -> option B) (g : A -> B) (l : list A) :
  Forall (fun a => f a = Some (g a)) l -> mapM f l = Some (map g l).
Proof.
  induction 1 as [|a l Ha _ IH]; simpl; auto.
  rewrite Ha; simpl. rewrite IH; reflexivity.
Qed.

(** * Facts on [_tau] *)

Import ComplexPoincareDiskMetric.

Lemma delta_sym (a b : C) (atol : R) : delta a b atol = delta b a atol.
Proof.
  unfold delta. rewrite (Cabs_sub_sym a b).
  replace (C1 - b * Cconj a)%C with (Cconj (C1 - a * Cconj b)).
  - rewrite Cabs_conj; reflexivity.
  - apply C_eq; simpl; ring.
Qed.

Lemma delta_range (a b : C) (atol : R) :
  0 < atol -> atol <= 1 -> 0 <= delta a b atol <= 1 - atol.
Proof.
  intros H0 H1. unfold delta. split; [ | apply Rmin_r].
  apply Rmin_glb; [ | lra].
  apply Rmult_le_pos; [apply Cabs_nonneg | ].
  apply Rlt_le, Rinv_0_lt_compat.
  apply Rlt_le_trans with atol; auto. apply Rmax_r.
Qed.

(** [_tau] in closed form, for any tolerance that keeps the logarithm in
    its domain. *)
Lemma tau_closed_form (a b : C) (atol : R) :
  0 < atol -> -1 < delta a b atol < 1 ->
  _tau a b atol = Some (artanh (delta a b atol)).
Proof.
  intros H0 Hd. unfold _tau.
  rewrite fdiv_some.
  2:{ pose proof (Rmax_r (Cabs (C1 - a * Cconj b)) atol); lra. }
  cbn [bind]. fold (delta a b atol).
  rewrite fdiv_some by lra. cbn [bind].
  rewrite flog_some by (apply Rdiv_lt_0_compat; lra).
  reflexivity.
Qed.

Lemma tau_some (a b : C) (atol : R) :
  0 < atol -> atol <= 1 -> _tau a b atol = Some (artanh (delta a b atol)).
Proof.
  intros H0 H1. pose proof (delta_range a b atol H0 H1).
  apply tau_closed_form; lra.
Qed.

Lemma artanh_0 : artanh 0 = 0.
Proof.
  unfold artanh. replace ((1 + 0) / (1 - 0)) with 1 by field.
  rewrite ln_1; ring.
Qed.

Lemma ln_le_mono (x y : R) : 0 < x -> x <= y -> ln x <= ln y.
Proof.
  intros Hx [Hlt| ->]; [ | lra]. apply Rlt_le, ln_increasing; auto.
Qed.

Lemma artanh_le (x y : R) : -1 < x -> x <= y -> y < 1 -> artanh x <= artanh y.
Proof.
  intros Hx Hxy Hy. unfold artanh.
  apply Rmult_le_compat_l; [lra | ].
  apply ln_le_mono; [apply Rdiv_lt_0_compat; lra | ].
  apply Rmult_le_reg_r with ((1 - x) * (1 - y)); [nra | ].
  replace ((1 + x) / (1 - x) * ((1 - x) * (1 - y))) with ((1 + x) * (1 - y))
    by (field; lra).
  replace ((1 + y) / (1 - y) * ((1 - x) * (1 - y))) with ((1 + y) * (1 - x))
    by (field; lra).
  nra.
Qed.

Lemma artanh_nonneg (x : R) : 0 <= x -> x < 1 -> 0 <= artanh x.
Proof.
  intros H0 H1. rewrite <- artanh_0. apply artanh_le; lra.
Qed.

Lemma tau_sym (a b : C) (atol : R) : _tau a b atol = _tau b a atol.
Proof.
  unfold _tau. rewrite (Cabs_sub_sym a b).
  replace (C1 - b * Cconj a)%C with (Cconj (C1 - a * Cconj b)).
  - rewrite Cabs_conj; reflexivity.
  - apply C_eq; simpl; ring.
Qed.

Lemma dist_of_tau (scale : R) (a b : C) (atol t : R) :
  _tau a b atol = Some t -> dist scale a b atol = Some (t * scale).
Proof. intros H. unfold dist. rewrite H. reflexivity. Qed.

Lemma squared_dist_of_tau (scale : R) (a b : C) (atol t : R) :
  _tau a b atol = Some t -> squared_dist scale a b atol = Some (t ^ 2 * scale ^ 2).
Proof. intros H. unfold squared_dist. rewrite H. reflexivity. Qed.

Lemma Csub_diag (a : C) : (a - a)%C = C0.
Proof. apply C_eq; simpl; ring. Qed.

Lemma delta_diag (a : C) (atol : R) : 0 < atol -> atol <= 1 -> delta a a atol = 0.
Proof.
  intros H0 H1. unfold delta. rewrite Csub_diag, Cabs_0.
  unfold Rdiv. rewrite Rmult_0_l. apply Rmin_left. lra.
Qed.

(** * Distances *)

(** C3, as stated, fails: with the positive tolerance 3/2 the clamp
    [min(delta, 1 - atol)] is negative and [_tau(0, 0)] is a negative
    number. *)
Lemma tau_negative_large_atol :
  0 < 3 / 2 /\ exists t, _tau C0 C0 (3 / 2) = Some t /\ t < 0.
Proof.
  split; [lra | ].
  assert (Hd : delta C0 C0 (3 / 2) = - (1 / 2)).
  { unfold delta. rewrite Csub_diag, Cabs_0.
    unfold Rdiv at 1. rewrite Rmult_0_l. rewrite Rmin_right; lra. }
  exists (artanh (- (1 / 2))). split.
  - rewrite <- Hd. apply tau_closed_form; rewrite ?Hd; lra.
  - unfold artanh. replace ((1 + - (1 / 2)) / (1 - - (1 / 2))) with (1 / 3) by field.
    assert (ln (1 / 3) < ln 1) by (apply ln_increasing; lra).
    rewrite ln_1 in *. lra.
Qed.

(** C3 (amended): for every pair of complex points and every tolerance
    [0 < atol <= 1], [_tau] returns a finite real that is non-negative, the
    argument of its logarithm being a positive ratio; and [squared_dist] is
    the square of [dist], which is [(dist / scale)^2 * scale^2] when
    [scale] is not zero. *)
Theorem tau_nonneg_squared_dist (a b : C) (atol scale : R) :
  0 < atol -> atol <= 1 ->
  exists t,
    _tau a b atol = Some t /\ 0 <= t /\
    t = 1 / 2 * ln ((1 + delta a b atol) / (1 - delta a b atol)) /\
    0 < (1 + delta a b atol) / (1 - delta a b atol) /\
    exists d sd,
      dist scale a b atol = Some d /\
      squared_dist scale a b atol = Some sd /\
      sd = d ^ 2 /\
      (scale <> 0 -> sd = (d / scale) ^ 2 * scale ^ 2).
Proof.
  intros H0 H1. pose proof (delta_range a b atol H0 H1) as Hd.
  pose proof (tau_some a b atol H0 H1) as Ht.
  exists (artanh (delta a b atol)). split; [exact Ht | ].
  split; [apply artanh_nonneg; lra | ].
  split; [reflexivity | ].
  split; [apply Rdiv_lt_0_compat; lra | ].
  exists (artanh (delta a b atol) * scale),
         (artanh (delta a b atol) ^ 2 * scale ^ 2).
  split; [apply dist_of_tau, Ht | ].
  split; [apply squared_dist_of_tau, Ht | ].
  split; [ring | intros Hs; field; exact Hs].
Qed.

Lemma tau_nonneg_squared_dist_witness :
  exists t,
    _tau (1 / 2, 0) (0, 1 / 3) (1 / 10 ^ 12) = Some t /\ 0 <= t /\
    t = 1 / 2 * ln ((1 + delta (1 / 2, 0) (0, 1 / 3) (1 / 10 ^ 12)) /
                    (1 - delta (1 / 2, 0) (0, 1 / 3) (1 / 10 ^ 12))) /\
    0 < (1 + delta (1 / 2, 0) (0, 1 / 3) (1 / 10 ^ 12)) /
        (1 - delta (1 / 2, 0) (0, 1 / 3) (1 / 10 ^ 12)) /\
    exists d sd,
      dist 2 (1 / 2, 0) (0, 1 / 3) (1 / 10 ^ 12) = Some d /\
      squared_dist 2 (1 / 2, 0) (0, 1 / 3) (1 / 10 ^ 12) = Some sd /\
      sd = d ^ 2 /\
      (2 <> 0 -> sd = (d / 2) ^ 2 * 2 ^ 2).
Proof.
  apply (tau_nonneg_squared_dist (1 / 2, 0) (0, 1 / 3) (1 / 10 ^ 12) 2); lra.
Defined.

(** C4: for valid points [a], [b] of the open unit disk and any scale and
    tolerance, [dist(a, b)] and [dist(b, a)] are the same; with a tolerance
    of (0, 1) they are the same finite number. *)
Theorem dist_symmetric (a b : C) (atol scale : R) :
  Cabs a < 1 -> Cabs b < 1 ->
  dist scale a b atol = dist scale b a atol /\
  (0 < atol < 1 ->
   exists d, dist scale a b atol = Some d /\ dist scale b a atol = Some d).
Proof.
  intros _ _. split.
  - unfold dist. rewrite tau_sym. reflexivity.
  - intros [H0 H1]. exists (artanh (delta a b atol) * scale). split.
    + apply dist_of_tau, tau_some; lra.
    + apply dist_of_tau. rewrite tau_sym. apply tau_some; lra.
Qed.

Lemma Cabs_real_pos (x : R) : 0 <= x -> Cabs (x, 0) = x.
Proof. apply (Cabs_RtoC x). Qed.

Lemma Cabs_imag_pos (y : R) : 0 <= y -> Cabs (0, y) = y.
Proof.
  intros Hy. apply Cabs_unique; auto. unfold Cnorm2; simpl; ring.
Qed.

Lemma dist_symmetric_witness :
  dist 2 (1 / 2, 0) (0, 1 / 3) (1 / 10 ^ 12) =
  dist 2 (0, 1 / 3) (1 / 2, 0) (1 / 10 ^ 12) /\
  (0 < 1 / 10 ^ 12 < 1 ->
   exists d,
     dist 2 (1 / 2, 0) (0, 1 / 3) (1 / 10 ^ 12) = Some d /\
     dist 2 (0, 1 / 3) (1 / 2, 0) (1 / 10 ^ 12) = Some d).
Proof.
  apply (dist_symmetric (1 / 2, 0) (0, 1 / 3) (1 / 10 ^ 12) 2).
  - rewrite Cabs_real_pos; lra.
  - rewrite Cabs_imag_pos; lra.
Defined.

(** C5: with a tolerance of (0, 1): [dist(a, a) = 0] for every valid point
    [a]; [dist(a, b) >= 0] for all valid points [a], [b], the scale being
    positive; and at [point_a = point_b = 0] both [dist] and [squared_dist]
    are 0 whatever the scale. *)
Theorem dist_zero_identity_nonneg (atol scale : R) :
  0 < atol < 1 ->
  (forall a, Cabs a < 1 -> dist scale a a atol = Some 0) /\
  (forall a b, Cabs a < 1 -> Cabs b < 1 -> 0 <= scale ->
     exists d, dist scale a b atol = Some d /\ 0 <= d) /\
  dist scale C0 C0 atol = Some 0 /\
  squared_dist scale C0 C0 atol = Some 0.
Proof.
  intros [H0 H1].
  assert (Hdiag : forall a, _tau a a atol = Some 0).
  { intros a. rewrite tau_some by lra. rewrite delta_diag by lra.
    rewrite artanh_0; reflexivity. }
  repeat split.
  - intros a _. rewrite (dist_of_tau scale a a atol 0 (Hdiag a)). f_equal; ring.
  - intros a b _ _ Hs. exists (artanh (delta a b atol) * scale). split.
    + apply dist_of_tau, tau_some; lra.
    + pose proof (delta_range a b atol H0 (Rlt_le _ _ H1)).
      apply Rmult_le_pos; [apply artanh_nonneg | ]; lra.
  - rewrite (dist_of_tau scale C0 C0 atol 0 (Hdiag C0)). f_equal; ring.
  - rewrite (squared_dist_of_tau scale C0 C0 atol 0 (Hdiag C0)). f_equal; ring.
Qed.

Lemma dist_zero_identity_nonneg_witness :
  (forall a, Cabs a < 1 -> dist 3 a a (1 / 10 ^ 12) = Some 0) /\
  (forall a b, Cabs a < 1 -> Cabs b < 1 -> 0 <= 3 ->
     exists d, dist 3 a b (1 / 10 ^ 12) = Some d /\ 0 <= d) /\
  dist 3 C0 C0 (1 / 10 ^ 12) = Some 0 /\
  squared_dist 3 C0 C0 (1 / 10 ^ 12) = Some 0.
Proof.
  apply (dist_zero_identity_nonneg (1 / 10 ^ 12) 3); lra.
Defined.


Module Float64Facts.

Import PrimFloat.
Local Open Scope float_scope.


End Float64Facts.



(** * The manifold *)

Import ComplexPoincareDisk.

Lemma projection_at_projected (gs_atol : R) (p : C) :
  0 < gs_atol < 1 -> projection_at gs_atol p = Some (projected gs_atol p).
Proof.
  intros [H0 H1]. unfold projection_at, projected.
  destruct (Rle_dec (1 - gs_atol) (Cabs p)) as [Hp|Hp]; [ | reflexivity].
  rewrite fdiv_some by lra. reflexivity.
Qed.

Lemma projected_outside (gs_atol : R) (p : C) :
  1 - gs_atol <= Cabs p ->
  projected gs_atol p = (RtoC ((1 - gs_atol) / Cabs p) * p)%C.
Proof.
  intros Hp. unfold projected.
  destruct (Rle_dec (1 - gs_atol) (Cabs p)); [reflexivity | contradiction].
Qed.

Lemma projected_inside (gs_atol : R) (p : C) :
  Cabs p < 1 - gs_atol -> projected gs_atol p = p.
Proof.
  intros Hp. unfold projected.
  destruct (Rle_dec (1 - gs_atol) (Cabs p)); [lra | reflexivity].
Qed.

Lemma Cabs_projected_outside (gs_atol : R) (p : C) :
  0 < gs_atol < 1 -> 1 - gs_atol <= Cabs p ->
  Cabs (projected gs_atol p) = 1 - gs_atol.
Proof.
  intros [H0 H1] Hp. rewrite projected_outside by auto.
  rewrite Cabs_scale.
  - field; lra.
  - apply Rlt_le, Rdiv_lt_0_compat; lra.
Qed.

Lemma angle_projected (gs_atol : R) (p : C) :
  0 < gs_atol < 1 -> angle (projected gs_atol p) = angle p.
Proof.
  intros [H0 H1]. unfold projected.
  destruct (Rle_dec (1 - gs_atol) (Cabs p)) as [Hp|Hp]; [ | reflexivity].
  apply angle_scale, Rdiv_lt_0_compat; lra.
Qed.

Lemma Cabs_projected_lt_1 (gs_atol : R) (p : C) :
  0 < gs_atol < 1 -> Cabs (projected gs_atol p) < 1.
Proof.
  intros H. destruct (Rle_dec (1 - gs_atol) (Cabs p)) as [Hp|Hp].
  - rewrite Cabs_projected_outside by auto. lra.
  - rewrite projected_inside by lra. lra.
Qed.

Lemma projected_idempotent (gs_atol : R) (p : C) :
  0 < gs_atol < 1 -> projected gs_atol (projected gs_atol p) = projected gs_atol p.
Proof.
  intros H. destruct (Rle_dec (1 - gs_atol) (Cabs p)) as [Hp|Hp].
  - pose proof (Cabs_projected_outside gs_atol p H Hp) as Hq.
    rewrite (projected_outside gs_atol (projected gs_atol p)) by lra.
    rewrite Hq. rewrite Cmul_RtoC_l. apply C_eq; simpl; field; lra.
  - rewrite (projected_inside gs_atol p) by lra. apply projected_inside; lra.
Qed.

Lemma projection_total (gs_atol : R) (point : ndarray C) :
  0 < gs_atol < 1 ->
  projection gs_atol point =
  Some (mk_ndarray (shape point) (map (projected gs_atol) (data point))).
Proof.
  intros H. unfold projection.
  rewrite (mapM_some _ (projected gs_atol)); [reflexivity | ].
  apply Forall_forall. intros p _. apply projection_at_projected; auto.
Qed.

Lemma Forall_take {A : Type} (P : A -> Prop) (n : nat) (l : list A) :
  Forall P l -> Forall P (firstn n l).
Proof.
  intros H. revert n. induction H as [|x l Hx _ IH]; intros [|n]; simpl; auto.
Qed.

Lemma Forall_drop {A : Type} (P : A -> Prop) (n : nat) (l : list A) :
  Forall P l -> Forall P (skipn n l).
Proof.
  intros H. revert n. induction H as [|x l Hx Hl IH]; intros [|n]; simpl; auto.
Qed.

Lemma Forall_entry {A : Type} (P : A -> Prop) (a : ndarray A) (i : nat) :
  Forall P (data a) -> Forall P (entry a i).
Proof.
  intros H. unfold entry. apply Forall_take, Forall_drop, H.
Qed.

Lemma forallb_modulus (l : list C) :
  forallb (fun z => Rltb (Cabs z) 1) l = true <-> Forall (fun z => Cabs z < 1) l.
Proof.
  rewrite forallb_forall, Forall_forall. split; intros H z Hz.
  - apply Rltb_true, H, Hz.
  - apply Rltb_true, H, Hz.
Qed.

Lemma is_scalar_accepted (sh : list nat) :
  ((length sh =? 1)%nat || ((length sh =? 2)%nat && (nth 1 sh 0 =? 1)%nat)) = true
  <-> accepted_shape sh.
Proof.
  unfold accepted_shape.
  rewrite orb_true_iff, andb_true_iff, !Nat.eqb_eq. reflexivity.
Qed.

Lemma nth_error_map_seq {B : Type} (f : nat -> B) (n i : nat) :
  nth_error (map f (seq 0 n)) i = if (i <? n)%nat then Some (f i) else None.
Proof.
  rewrite nth_error_map, nth_error_seq.
  destruct (i <? n)%nat; reflexivity.
Qed.

(** C8: [belongs] has one answer per entry along the first axis, and the
    answer for entry [i] is true exactly when the shape is accepted (rank 1,
    or rank 2 with second dimension 1) and every component of the entry has
    modulus strictly below 1; the tolerance argument has no effect. *)
Theorem belongs_iff (point : ndarray C) (atol : R) :
  (forall i,
     (exists r, belongs point atol = Some r /\ nth_error r i = Some true) <->
     (accepted_shape (shape point) /\ (i < hd 0 (shape point))%nat /\
      Forall (fun z => Cabs z < 1) (entry point i))) /\
  (forall atol', belongs point atol' = belongs point atol).
Proof.
  split; [ | reflexivity].
  intros i. unfold belongs.
  destruct (shape point) as [|n sh] eqn:Hsh.
  { split.
    - intros (r & Hr & _); discriminate.
    - intros (_ & Hi & _); simpl in Hi; lia. }
  simpl hd. rewrite <- is_scalar_accepted, <- forallb_modulus.
  split.
  - intros (r & Hr & Hi). injection Hr as <-.
    rewrite map_map, nth_error_map_seq in Hi.
    destruct (Nat.ltb_spec i n) as [Hlt|Hge]; [ | discriminate].
    injection Hi as Hi. apply andb_true_iff in Hi as [Hs Hm]. auto.
  - intros (Hs & Hlt & Hm). eexists. split; [reflexivity | ].
    rewrite map_map, nth_error_map_seq.
    destruct (Nat.ltb_spec i n) as [_|Hn]; [ | lia].
    f_equal. apply andb_true_iff. auto.
Qed.

Lemma belongs_single (q : C) (atol : R) :
  Cabs q < 1 -> belongs (mk_ndarray [1%nat] [q]) atol = Some [true].
Proof.
  intros Hq. unfold belongs, entry; simpl.
  assert (Hb : Rltb (Cabs q) 1 = true) by (apply Rltb_true, Hq).
  rewrite Hb. reflexivity.
Qed.

(** C6: the tolerance [tol] of the backend being in (0, 1), every point [p]
    with [|p| >= 1 - tol] (so also one with [|p| = 1.0 + 1e-9]) is projected
    to a point of modulus exactly [1 - tol] with the angle of [p], and the
    projected point satisfies [belongs]: its modulus is strictly below 1. *)
Theorem projection_safety (gs_atol atol : R) (p : C) :
  0 < gs_atol < 1 -> 1 - gs_atol <= Cabs p ->
  exists q,
    projection gs_atol (mk_ndarray [1%nat] [p]) = Some (mk_ndarray [1%nat] [q]) /\
    Cabs q = 1 - gs_atol /\
    angle q = angle p /\
    Cabs q < 1 /\
    belongs (mk_ndarray [1%nat] [q]) atol = Some [true].
Proof.
  intros H Hp. exists (projected gs_atol p).
  pose proof (Cabs_projected_lt_1 gs_atol p H) as Hlt.
  split; [rewrite projection_total by auto; reflexivity | ].
  split; [apply Cabs_projected_outside; auto | ].
  split; [apply angle_projected; auto | ].
  split; [exact Hlt | apply belongs_single, Hlt].
Qed.

Lemma projection_safety_witness :
  exists q,
    projection (1 / 10 ^ 12) (mk_ndarray [1%nat] [(1 + 1 / 10 ^ 9, 0)]) =
      Some (mk_ndarray [1%nat] [q]) /\
    Cabs q = 1 - 1 / 10 ^ 12 /\
    angle q = angle (1 + 1 / 10 ^ 9, 0) /\
    Cabs q < 1 /\
    belongs (mk_ndarray [1%nat] [q]) (1 / 10 ^ 12) = Some [true].
Proof.
  apply (projection_safety (1 / 10 ^ 12) (1 / 10 ^ 12) (1 + 1 / 10 ^ 9, 0)).
  - lra.
  - rewrite Cabs_real_pos; lra.
Defined.

(** C7: the tolerance of the backend being in (0, 1), [projection] is
    idempotent on every array of points, and it returns unchanged an array
    whose points all have modulus below [1 - tol]. *)
Theorem projection_idempotent (gs_atol : R) (point : ndarray C) :
  0 < gs_atol < 1 ->
  (exists q,
     projection gs_atol point = Some q /\ projection gs_atol q = Some q) /\
  (Forall (fun p => Cabs p < 1 - gs_atol) (data point) ->
   projection gs_atol point = Some point).
Proof.
  intros H. split.
  - eexists. split; [apply projection_total; auto | ].
    rewrite projection_total by auto. simpl. f_equal. f_equal.
    rewrite map_map. apply map_ext. intros p. apply projected_idempotent; auto.
  - intros Hin. rewrite projection_total by auto.
    destruct point as [sh l]; simpl in *. f_equal. f_equal.
    induction Hin as [|p l Hp _ IH]; simpl; auto.
    rewrite IH, projected_inside by auto. reflexivity.
Qed.

Lemma projection_idempotent_witness :
  (exists q,
     projection (1 / 10 ^ 12) (mk_ndarray [2%nat; 1%nat] [(2, 0); (0, 1 / 2)]) = Some q /\
     projection (1 / 10 ^ 12) q = Some q) /\
  (Forall (fun p => Cabs p < 1 - 1 / 10 ^ 12)
          (data (mk_ndarray [2%nat; 1%nat] [(2, 0); (0, 1 / 2)])) ->
   projection (1 / 10 ^ 12) (mk_ndarray [2%nat; 1%nat] [(2, 0); (0, 1 / 2)]) =
   Some (mk_ndarray [2%nat; 1%nat] [(2, 0); (0, 1 / 2)])).
Proof.
  apply (projection_idempotent (1 / 10 ^ 12)
           (mk_ndarray [2%nat; 1%nat] [(2, 0); (0, 1 / 2)])).
  lra.
Defined.

Lemma belongs_all_true (a : ndarray C) (atol : R) (n : nat) :
  shape a = [n] \/ shape a = [n; 1%nat] ->
  Forall (fun z => Cabs z < 1) (data a) ->
  belongs a atol = Some (repeat true n).
Proof.
  intros Hsh Ha. unfold belongs.
  assert (Hent : forall i,
            forallb (fun z => Rltb (Cabs z) 1) (entry a i) = true).
  { intros i. apply forallb_modulus, Forall_entry, Ha. }
  assert (Hmap : forall b,
            map (fun x => b && x)
                (map (fun i => forallb (fun z => Rltb (Cabs z) 1) (entry a i)) (seq 0 n))
            = repeat b n).
  { intros b. rewrite map_map.
    rewrite (map_ext _ (fun _ => b)).
    - rewrite map_const, length_seq; reflexivity.
    - intros i. rewrite Hent. apply andb_true_r. }
  destruct Hsh as [Hsh | Hsh]; rewrite Hsh;
    cbn [length Nat.eqb nth orb andb]; apply f_equal; exact (Hmap true).
Qed.

(** C9: the tolerance of the backend being in (0, 1), for every number of
    samples, every bound (also above 1) and every state of the generator,
    [random_point] returns [n_samples] points, each of modulus strictly
    below 1, and [belongs] is true of each. *)
Theorem random_point_belongs (gs_atol atol : R) (n_samples : nat) (bound : R) (g : rng) :
  0 < gs_atol < 1 -> (1 <= n_samples)%nat -> 0 < bound ->
  exists samples,
    fst (random_point gs_atol n_samples bound g) = Some samples /\
    belongs samples atol = Some (repeat true n_samples) /\
    Forall (fun p => Cabs p < 1) (data samples) /\
    length (data samples) = n_samples.
Proof.
  intros H _ _. unfold random_point, rand.
  set (size := if (n_samples =? 1)%nat then [1%nat] else [n_samples; 1%nat]).
  assert (Hsize : size_of size = n_samples).
  { unfold size. destruct (Nat.eqb_spec n_samples 1) as [-> | _]; simpl; lia. }
  cbn [fst]. rewrite projection_total by auto. cbn [shape data].
  eexists. split; [reflexivity | ]. cbn [shape data].
  split; [ | split].
  - apply belongs_all_true; cbn [shape data].
    + unfold size. destruct (Nat.eqb_spec n_samples 1) as [-> | _]; auto.
    + apply Forall_forall. intros q Hq. apply in_map_iff in Hq as (p & <- & _).
      apply Cabs_projected_lt_1; auto.
  - apply Forall_forall. intros q Hq. apply in_map_iff in Hq as (p & <- & _).
    apply Cabs_projected_lt_1; auto.
  - rewrite !length_map, length_combine, !length_map, !length_seq, Hsize.
    apply Nat.min_id.
Qed.

Lemma random_point_belongs_witness :
  exists samples,
    fst (random_point (1 / 10 ^ 12) 3 5 (fun _ => 9 / 10)) = Some samples /\
    belongs samples (1 / 10 ^ 12) = Some (repeat true 3) /\
    Forall (fun p => Cabs p < 1) (data samples) /\
    length (data samples) = 3%nat.
Proof.
  apply (random_point_belongs (1 / 10 ^ 12) (1 / 10 ^ 12) 3 5 (fun _ => 9 / 10)).
  - lra.
  - lia.
  - lra.
Defined.

(** * The exponential and the logarithm *)

Lemma Cabs_pow2 (z : C) : Cabs z ^ 2 = Cnorm2 z.
Proof. rewrite <- Cabs_sqr. ring. Qed.

Lemma Cnorm2_lt_1 (z : C) : Cabs z < 1 -> Cnorm2 z < 1.
Proof. apply Cabs_lt_1_iff. Qed.

Lemma Cdiv_eq (z w p : C) : w <> C0 -> z = (p * w)%C -> (z / w)%C = p.
Proof. intros Hw ->. field. exact Hw. Qed.

Lemma Cexp_i_0 : Cexp (Ci * RtoC 0) = C1.
Proof. rewrite Cexp_i, cos_0, sin_0. reflexivity. Qed.

(** [exp(1j * angle(v))] is [v] itself on the unit circle. *)
Lemma Cexp_i_angle_unit (v : C) :
  Cnorm2 v = 1 -> Cexp (Ci * RtoC (angle v)) = v.
Proof.
  intros Hv.
  assert (Habs : Cabs v = 1) by (apply Cabs_unique; [lra | rewrite Hv; ring]).
  assert (Hne : v <> C0) by (apply Cabs_neq_0; lra).
  rewrite Cexp_i_angle by auto. rewrite Habs. fold C1. field.
  apply RtoC_neq_0; lra.
Qed.

(** The unit vector of a difference of angles. *)
Lemma Cexp_i_angle_sub (z z' : C) :
  z <> C0 -> z' <> C0 ->
  Cexp (Ci * RtoC (angle z - angle z')) =
  ((z * Cconj z') / (RtoC (Cabs z) * RtoC (Cabs z')))%C.
Proof.
  intros Hz Hz'.
  pose proof (Cabs_pos z Hz) as Hr. pose proof (Cabs_pos z' Hz') as Hr'.
  rewrite Cexp_i_sub, !Cexp_i_angle by auto.
  replace (Cconj (z' / RtoC (Cabs z'))%C) with (Cconj z' / RtoC (Cabs z'))%C.
  - field. split; apply RtoC_neq_0; lra.
  - unfold Cdiv. rewrite Cconj_mul. f_equal.
    rewrite <- RtoC_inv by lra. rewrite Cconj_RtoC. reflexivity.
Qed.

(** The denominator of [exp] does not vanish inside the disk. *)
Lemma exp_den_neq_0 (b u : C) (E : R) :
  Cnorm2 b < 1 -> Cnorm2 u = 1 -> 0 < E <= 1 ->
  (C1 + Cconj b * u + (C1 - Cconj b * u) * RtoC E)%C <> C0.
Proof.
  intros Hb Hu HE Hden.
  assert (Hq : Cnorm2 (Cconj b * u) < 1).
  { rewrite Cnorm2_mul, Cnorm2_conj, Hu. lra. }
  set (q := (Cconj b * u)%C) in *.
  destruct q as [x y]. unfold Cnorm2 in Hq. simpl in Hq.
  assert (Hre : 1 + x + ((1 - x) * E - (0 - y) * 0) = 0).
  { apply (f_equal Re) in Hden. simpl in Hden. lra. }
  assert (Hx : -1 < x) by nra.
  nra.
Qed.

Lemma Cabs_inv (w : C) : w <> C0 -> Cabs (Cinv w) = / Cabs w.
Proof.
  intros Hw. pose proof (Cabs_pos w Hw) as Hr.
  apply Cabs_unique.
  - apply Rlt_le, Rinv_0_lt_compat, Hr.
  - pose proof (Cnorm2_pos w Hw) as Hn. pose proof (Cabs_sqr w) as Hs.
    rewrite <- Rinv_mult, Hs.
    unfold Cinv, Cnorm2 in *; simpl. field. lra.
Qed.

Lemma Cabs_div (z w : C) : w <> C0 -> Cabs (z / w) = Cabs z / Cabs w.
Proof.
  intros Hw. unfold Cdiv. rewrite Cabs_mul, Cabs_inv by auto. reflexivity.
Qed.

Lemma RtoC_one_minus_norm2 (b : C) : RtoC (1 - Cabs b ^ 2) = (C1 - b * Cconj b)%C.
Proof. rewrite Cabs_pow2, RtoC_sub, Cmul_conj. reflexivity. Qed.

Lemma exp_minus_s_range (t b : C) :
  Cabs b < 1 -> 0 < Rexp (- (2 * Cabs t / (1 - Cabs b ^ 2))) <= 1.
Proof.
  intros Hb. split; [apply exp_pos | ].
  pose proof (Cabs_nonneg t) as Ht. pose proof (Cabs_nonneg b) as Hb0.
  assert (HD : 0 < 1 - Cabs b ^ 2) by nra.
  assert (Hs : 0 <= 2 * Cabs t / (1 - Cabs b ^ 2)).
  { apply Rmult_le_pos; [lra | apply Rlt_le, Rinv_0_lt_compat, HD]. }
  destruct Hs as [Hs | Hs].
  - pose proof (exp_increasing _ 0 (Ropp_lt_gt_0_contravar _ Hs)) as Hlt.
    rewrite exp_0 in Hlt. lra.
  - rewrite <- Hs, Ropp_0, exp_0. lra.
Qed.

(** [exp] in closed form, at a base point of the open disk. *)
Lemma exp_closed_form (t b : C) :
  Cabs b < 1 ->
  exp t b =
  Some (exp_value (Cexp (Ci * RtoC (angle t))) b
          (Rexp (- (2 * Cabs t / (1 - Cabs b ^ 2))))).
Proof.
  intros Hb. unfold exp.
  pose proof (Cabs_nonneg b) as Hb0.
  rewrite fdiv_some by nra. cbn [bind].
  rewrite cdiv_some; [reflexivity | ].
  apply exp_den_neq_0.
  - apply Cnorm2_lt_1, Hb.
  - apply Cnorm2_Cexp_i.
  - apply exp_minus_s_range, Hb.
Qed.

(** The unit vector of the quotient of two points one of which is a
    positive multiple of [u] times the other. *)
Lemma Cexp_i_angle_quotient (z z' u : C) (r : R) :
  0 < r -> Cnorm2 u = 1 -> z' <> C0 -> z = (RtoC r * u * z')%C ->
  Cexp (Ci * RtoC (angle z - angle z')) = u.
Proof.
  intros Hr Hu Hz' Hz.
  pose proof (Cabs_pos z' Hz') as Hr'.
  assert (Habs_u : Cabs u = 1) by (apply Cabs_unique; [lra | rewrite Hu; ring]).
  assert (Habs : Cabs z = r * Cabs z').
  { rewrite Hz, !Cabs_mul, Cabs_RtoC, Habs_u by lra. ring. }
  assert (Hne : z <> C0) by (apply Cabs_neq_0; rewrite Habs; nra).
  rewrite Cexp_i_angle_sub by auto.
  rewrite Habs, Hz, RtoC_mul.
  replace (RtoC r * u * z' * Cconj z')%C with (RtoC r * u * (z' * Cconj z'))%C by ring.
  rewrite Cmul_conj, <- Cabs_sqr, RtoC_mul.
  field. split; apply RtoC_neq_0; lra.
Qed.

Lemma Cconj_one_minus (b p : C) :
  (C1 - b * Cconj p)%C = Cconj (C1 - Cconj b * p).
Proof. apply C_eq; simpl; ring. Qed.

Section ExpThenLog.

Variables t b : C.
Hypothesis Hb : Cabs b < 1.

Let u : C := Cexp (Ci * RtoC (angle t)).
Let D : R := 1 - Cabs b ^ 2.
Let E : R := Rexp (- (2 * Cabs t / D)).
Let den : C := (C1 + Cconj b * u + (C1 - Cconj b * u) * RtoC E)%C.
Let p : C := exp_value u b E.

Lemma exp_D_pos : 0 < D.
Proof. pose proof (Cabs_nonneg b). unfold D. nra. Qed.

Lemma exp_E_range : 0 < E <= 1.
Proof. apply exp_minus_s_range, Hb. Qed.

Lemma exp_u_unit : Cabs u = 1.
Proof. apply Cabs_Cexp_i. Qed.

Lemma exp_den_nonzero : den <> C0.
Proof.
  apply exp_den_neq_0.
  - apply Cnorm2_lt_1, Hb.
  - apply Cnorm2_Cexp_i.
  - apply exp_E_range.
Qed.

Lemma exp_minus_base : (p - b)%C = (RtoC ((1 - E) * D) * u / den)%C.
Proof.
  unfold D. rewrite RtoC_mul, RtoC_sub, RtoC_one_minus_norm2.
  fold C1. unfold p, exp_value, den. field. exact exp_den_nonzero.
Qed.

Lemma exp_one_minus : (C1 - Cconj b * p)%C = (RtoC ((1 + E) * D) / den)%C.
Proof.
  unfold D. rewrite RtoC_mul, RtoC_add, RtoC_one_minus_norm2.
  fold C1. unfold p, exp_value, den. field. exact exp_den_nonzero.
Qed.

Lemma Cabs_exp_minus_base : Cabs (b - p) = (1 - E) * D / Cabs den.
Proof.
  pose proof exp_D_pos. pose proof exp_E_range.
  rewrite Cabs_sub_sym, exp_minus_base, Cabs_div by exact exp_den_nonzero.
  rewrite Cabs_mul, exp_u_unit, Cabs_RtoC by nra. field.
  apply Rgt_not_eq, Cabs_pos, exp_den_nonzero.
Qed.

Lemma Cabs_exp_one_minus : Cabs (C1 - b * Cconj p) = (1 + E) * D / Cabs den.
Proof.
  pose proof exp_D_pos. pose proof exp_E_range.
  rewrite Cconj_one_minus, Cabs_conj, exp_one_minus, Cabs_div
    by exact exp_den_nonzero.
  rewrite Cabs_RtoC by nra. reflexivity.
Qed.

Lemma Cabs_exp_one_minus_pos : 0 < Cabs (C1 - b * Cconj p).
Proof.
  pose proof exp_D_pos. pose proof exp_E_range.
  rewrite Cabs_exp_one_minus. apply Rdiv_lt_0_compat; [nra | ].
  apply Cabs_pos, exp_den_nonzero.
Qed.

Lemma delta_exp :
  Cabs (b - p) / Cabs (C1 - b * Cconj p) = (1 - E) / (1 + E).
Proof.
  pose proof exp_D_pos. pose proof exp_E_range.
  rewrite Cabs_exp_minus_base, Cabs_exp_one_minus. field.
  repeat split; try lra.
  apply Rgt_not_eq, Cabs_pos, exp_den_nonzero.
Qed.

(** [_tau] at the image of [exp], away from the clamps. *)
Lemma tau_exp (atol : R) :
  Cabs (C1 - b * Cconj p) > atol ->
  Cabs (b - p) / Cabs (C1 - b * Cconj p) < 1 - atol ->
  _tau b p atol = Some (Cabs t / D).
Proof.
  intros Hden Hdelta. pose proof exp_D_pos as HD. pose proof exp_E_range as HE.
  pose proof Cabs_exp_one_minus_pos as Hpos.
  unfold _tau.
  rewrite Rmax_left by lra.
  rewrite fdiv_some by lra. cbn [bind].
  rewrite Rmin_left by lra.
  rewrite delta_exp.
  replace (1 - (1 - E) / (1 + E)) with (2 * E / (1 + E)) by (field; lra).
  replace (1 + (1 - E) / (1 + E)) with (2 / (1 + E)) by (field; lra).
  rewrite fdiv_some.
  2:{ apply Rgt_not_eq, Rdiv_lt_0_compat; lra. }
  cbn [bind].
  replace (2 / (1 + E) / (2 * E / (1 + E))) with (/ E) by (field; lra).
  rewrite flog_some by (apply Rinv_0_lt_compat; lra).
  rewrite ln_Rinv by lra. unfold E at 1. rewrite ln_exp.
  cbn [bind]. f_equal. field. lra.
Qed.

(** The first inverse law, on the closed form of [exp]. *)
Lemma log_exp_value (atol : R) :
  Cabs (C1 - b * Cconj p) > atol ->
  Cabs (b - p) / Cabs (C1 - b * Cconj p) < 1 - atol ->
  log atol p b = Some t.
Proof.
  intros Hden Hdelta. pose proof exp_D_pos as HD. pose proof exp_E_range as HE.
  unfold log. rewrite (tau_exp atol Hden Hdelta). cbn [bind]. f_equal.
  fold D.
  destruct (C_eq_dec t C0) as [Ht | Ht].
  - assert (Hz : RtoC (Cabs t / D) = C0).
    { rewrite Ht, Cabs_0. unfold Rdiv. rewrite Rmult_0_l. reflexivity. }
    rewrite Hz. etransitivity; [ | symmetry; exact Ht]. ring.
  - pose proof (Cabs_pos t Ht) as Htpos.
    assert (HE1 : E < 1).
    { unfold E. rewrite <- exp_0. apply exp_increasing.
      assert (0 < 2 * Cabs t / D) by (apply Rdiv_lt_0_compat; lra). lra. }
    rewrite (Cexp_i_angle_quotient _ _ u ((1 - E) / (1 + E))).
    + unfold u. rewrite Cexp_i_angle by exact Ht.
      rewrite RtoC_div by lra. field.
      split; apply RtoC_neq_0; lra.
    + apply Rdiv_lt_0_compat; lra.
    + apply Cnorm2_Cexp_i.
    + apply Cabs_neq_0. rewrite <- Cabs_conj, <- Cconj_one_minus.
      pose proof Cabs_exp_one_minus_pos. lra.
    + rewrite exp_minus_base, exp_one_minus.
      rewrite RtoC_div, !RtoC_mul by lra. field.
      split; [exact exp_den_nonzero | apply RtoC_neq_0; lra].
Qed.

End ExpThenLog.

Lemma Cconj_as_quotient (z : C) :
  z <> C0 -> Cconj z = (RtoC (Cabs z) * RtoC (Cabs z) / z)%C.
Proof.
  intros Hz. rewrite <- RtoC_mul, Cabs_sqr, <- Cmul_conj. field. exact Hz.
Qed.

Lemma artanh_pos (x : R) : 0 < x -> x < 1 -> 0 < artanh x.
Proof.
  intros H0 H1. unfold artanh.
  assert (ln 1 < ln ((1 + x) / (1 - x))).
  { apply ln_increasing; [lra | ].
    apply Rmult_lt_reg_r with (1 - x); [lra | ].
    replace ((1 + x) / (1 - x) * (1 - x)) with (1 + x) by (field; lra). lra. }
  rewrite ln_1 in *. lra.
Qed.

Lemma exp_minus_two_artanh (x : R) :
  -1 < x < 1 -> Rexp (- (2 * artanh x)) = (1 - x) / (1 + x).
Proof.
  intros Hx. unfold artanh.
  replace (2 * (1 / 2 * ln ((1 + x) / (1 - x)))) with (ln ((1 + x) / (1 - x))) by field.
  rewrite exp_Ropp, exp_ln by (apply Rdiv_lt_0_compat; lra).
  field. lra.
Qed.

Lemma Cabs_lt_of_norm2 (z w : C) : Cnorm2 z < Cnorm2 w -> Cabs z < Cabs w.
Proof.
  intros H. apply sqrt_lt_1; auto; apply Cnorm2_nonneg.
Qed.

(** Inside the disk the ratio of [_tau] is below 1 before any clamp. *)
Lemma disk_num_lt_den (b p : C) :
  Cabs b < 1 -> Cabs p < 1 -> Cabs (b - p) < Cabs (C1 - b * Cconj p).
Proof.
  intros Hb Hp. apply Cnorm2_lt_1 in Hb, Hp. apply Cabs_lt_of_norm2.
  assert (Hid : Cnorm2 (C1 - b * Cconj p) - Cnorm2 (b - p) =
                (1 - Cnorm2 b) * (1 - Cnorm2 p)).
  { unfold Cnorm2; simpl. ring. }
  assert (0 < (1 - Cnorm2 b) * (1 - Cnorm2 p)) by (apply Rmult_lt_0_compat; lra).
  lra.
Qed.

Section LogThenExp.

Variables p b : C.
Variable atol : R.
Hypothesis Hb : Cabs b < 1.
Hypothesis Hp : Cabs p < 1.
Hypothesis Hden : Cabs (C1 - b * Cconj p) > atol.
Hypothesis Hdelta : Cabs (b - p) / Cabs (C1 - b * Cconj p) < 1 - atol.

Let z : C := (p - b)%C.
Let z' : C := (C1 - Cconj b * p)%C.
Let D : R := 1 - Cabs b ^ 2.
Let d : R := Cabs (b - p) / Cabs (C1 - b * Cconj p).
Let v : C := Cexp (Ci * RtoC (angle z - angle z')).
Let t : C := (RtoC (artanh d) * v * RtoC D)%C.

Lemma log_D_pos : 0 < D.
Proof. pose proof (Cabs_nonneg b). unfold D. nra. Qed.

Lemma log_den_pos : 0 < Cabs (C1 - b * Cconj p).
Proof.
  pose proof (disk_num_lt_den b p Hb Hp). pose proof (Cabs_nonneg (b - p)). lra.
Qed.

Lemma log_d_range : 0 <= d < 1.
Proof.
  pose proof log_den_pos as Hpos. pose proof (disk_num_lt_den b p Hb Hp) as Hlt.
  unfold d. split.
  - apply Rmult_le_pos; [apply Cabs_nonneg | ].
    apply Rlt_le, Rinv_0_lt_compat, Hpos.
  - apply Rmult_lt_reg_r with (Cabs (C1 - b * Cconj p)); [exact Hpos | ].
    replace (Cabs (b - p) / Cabs (C1 - b * Cconj p) * Cabs (C1 - b * Cconj p))
      with (Cabs (b - p)) by (field; lra).
    lra.
Qed.

Lemma log_d_as_quotient : d = Cabs z / Cabs z'.
Proof.
  unfold d, z, z'. rewrite (Cabs_sub_sym b p), Cconj_one_minus, Cabs_conj.
  reflexivity.
Qed.

Lemma log_z'_pos : 0 < Cabs z'.
Proof.
  unfold z'. rewrite <- Cabs_conj, <- Cconj_one_minus. exact log_den_pos.
Qed.

(** [log] in closed form, away from the clamps. *)
Lemma log_closed_form : log atol p b = Some t.
Proof.
  pose proof log_d_range as Hd. pose proof log_den_pos as Hpos.
  unfold log, _tau.
  rewrite Rmax_left by lra.
  rewrite fdiv_some by lra. cbn [bind].
  rewrite Rmin_left by lra. fold d.
  rewrite fdiv_some by lra. cbn [bind].
  rewrite flog_some by (apply Rdiv_lt_0_compat; lra). cbn [bind].
  reflexivity.
Qed.

Lemma log_v_unit : Cnorm2 v = 1.
Proof. apply Cnorm2_Cexp_i. Qed.

Lemma Cabs_log : Cabs t = artanh d * D.
Proof.
  pose proof log_d_range as Hd. pose proof log_D_pos as HD.
  unfold t. rewrite !Cabs_mul, !Cabs_RtoC.
  - replace (Cabs v) with 1; [ring | ].
    symmetry. apply Cabs_unique; [lra | rewrite log_v_unit; ring].
  - lra.
  - apply artanh_nonneg; lra.
Qed.

Lemma exp_minus_s_log :
  Rexp (- (2 * Cabs t / (1 - Cabs b ^ 2))) = (1 - d) / (1 + d).
Proof.
  pose proof log_d_range as Hd. pose proof log_D_pos as HD.
  rewrite Cabs_log. fold D.
  replace (2 * (artanh d * D) / D) with (2 * artanh d) by (field; lra).
  apply exp_minus_two_artanh. lra.
Qed.

Lemma exp_i_theta_log : p <> b -> Cexp (Ci * RtoC (angle t)) = v.
Proof.
  intros Hpb. pose proof log_d_range as Hd. pose proof log_D_pos as HD.
  pose proof log_z'_pos as Hz'.
  assert (Hz : 0 < Cabs z).
  { apply Cabs_pos. unfold z. intros H. apply Hpb.
    apply C_eq; apply (f_equal Re) in H as H1; apply (f_equal Im) in H as H2;
      simpl in *; lra. }
  assert (Hdpos : 0 < d).
  { rewrite log_d_as_quotient. apply Rdiv_lt_0_compat; auto. }
  replace t with (RtoC (artanh d * D) * v)%C.
  - rewrite angle_scale.
    + apply Cexp_i_angle_unit, log_v_unit.
    + apply Rmult_lt_0_compat; [apply artanh_pos; lra | exact HD].
  - unfold t. rewrite RtoC_mul. ring.
Qed.

Lemma log_v_as_quotient :
  p <> b ->
  v = (z * (RtoC (Cabs z') * RtoC (Cabs z') / z') /
       (RtoC (Cabs z) * RtoC (Cabs z')))%C.
Proof.
  intros Hpb. pose proof log_z'_pos as Hz'.
  assert (Hz'0 : z' <> C0) by (apply Cabs_neq_0; lra).
  assert (Hz0 : z <> C0).
  { unfold z. intros H. apply Hpb.
    apply C_eq; apply (f_equal Re) in H as H1; apply (f_equal Im) in H as H2;
      simpl in *; lra. }
  unfold v. rewrite Cexp_i_angle_sub by auto.
  rewrite (Cconj_as_quotient z') at 1 by auto. reflexivity.
Qed.

(** The second inverse law, on the closed form of [log]. *)
Lemma exp_log_value : exp t b = Some p.
Proof.
  pose proof log_d_range as Hd. pose proof log_D_pos as HD.
  pose proof log_z'_pos as Hz'.
  rewrite exp_closed_form by exact Hb.
  rewrite exp_minus_s_log. f_equal.
  destruct (C_eq_dec p b) as [Hpb | Hpb].
  - assert (Hd0 : d = 0).
    { unfold d. rewrite Hpb, Csub_diag, Cabs_0. unfold Rdiv. apply Rmult_0_l. }
    assert (Ht0 : t = C0).
    { unfold t. rewrite Hd0, artanh_0. fold C0. ring. }
    rewrite Ht0, angle_0, Cexp_i_0, Hd0, Hpb.
    replace ((1 - 0) / (1 + 0)) with 1 by field.
    unfold exp_value. fold C1. field.
    intros H. apply (f_equal Re) in H. simpl in H. lra.
  - rewrite exp_i_theta_log by exact Hpb.
    assert (Hz : 0 < Cabs z).
    { apply Cabs_pos. unfold z. intros H. apply Hpb.
      apply C_eq; apply (f_equal Re) in H as H1; apply (f_equal Im) in H as H2;
        simpl in *; lra. }
    unfold exp_value. apply Cdiv_eq.
    + apply exp_den_neq_0.
      * apply Cnorm2_lt_1, Hb.
      * apply log_v_unit.
      * split; [apply Rdiv_lt_0_compat; lra | ].
        apply Rmult_le_reg_r with (1 + d); [lra | ].
        replace ((1 - d) / (1 + d) * (1 + d)) with (1 - d) by (field; lra). lra.
    + rewrite RtoC_div, RtoC_sub, RtoC_add by lra. fold C1.
      rewrite log_d_as_quotient, RtoC_div by lra.
      rewrite (log_v_as_quotient Hpb). unfold z, z'. field.
      fold z z'. repeat split.
      * apply RtoC_neq_0. lra.
      * rewrite <- RtoC_add. apply RtoC_neq_0. lra.
      * change (z' <> C0). apply Cabs_neq_0. lra.
      * apply RtoC_neq_0. lra.
Qed.

End LogThenExp.

(** ** On the positive real axis, from the origin *)

Lemma angle_RtoC_pos (x : R) : 0 < x -> angle (RtoC x) = 0.
Proof.
  intros Hx. unfold angle, arctan2; simpl.
  destruct (Rlt_dec 0 x); [ | contradiction].
  unfold Rdiv. rewrite Rmult_0_l. apply atan_0.
Qed.

Lemma angle_C1 : angle C1 = 0.
Proof. apply angle_RtoC_pos. lra. Qed.

Lemma Csub_0_r (z : C) : (z - C0)%C = z.
Proof. apply C_eq; simpl; ring. Qed.

Lemma one_minus_0_mul (z : C) : (C1 - C0 * z)%C = C1.
Proof. apply C_eq; simpl; ring. Qed.

Lemma one_minus_conj_0_mul (z : C) : (C1 - Cconj C0 * z)%C = C1.
Proof. apply C_eq; simpl; ring. Qed.

Lemma tanh_artanh (x : R) : -1 < x < 1 -> tanh_ (artanh x) = x.
Proof.
  intros Hx. unfold tanh_. rewrite exp_minus_two_artanh by exact Hx.
  field. lra.
Qed.

(** [exp] from the origin along the positive real axis is the hyperbolic
    tangent. *)
Lemma exp_real_axis (y : R) :
  0 < y -> exp (RtoC y) C0 = Some (RtoC (tanh_ y)).
Proof.
  intros Hy. rewrite exp_closed_form by (rewrite Cabs_0; lra).
  rewrite angle_RtoC_pos, Cexp_i_0, Cabs_0, Cabs_RtoC by lra.
  replace (2 * y / (1 - 0 ^ 2)) with (2 * y) by field.
  f_equal. unfold exp_value, tanh_.
  pose proof (exp_pos (- (2 * y))) as HE.
  rewrite RtoC_div, RtoC_sub, RtoC_add by lra. fold C1.
  replace (Cconj C0) with C0 by (apply C_eq; simpl; ring).
  field.
  change ((RtoC 1 + RtoC (Rexp (- (2 * y))))%C <> C0).
  rewrite <- RtoC_add. apply RtoC_neq_0. lra.
Qed.

(** [log] at the origin of a point of the positive real axis: the modulus
    is clamped at [1 - atol]. *)
Lemma log_real_axis (atol x : R) :
  0 < atol < 1 -> 0 < x ->
  log atol (RtoC x) C0 = Some (RtoC (artanh (Rmin x (1 - atol)))).
Proof.
  intros [H0 H1] Hx. unfold log, _tau.
  rewrite (Cabs_sub_sym C0), Csub_0_r, one_minus_0_mul, one_minus_conj_0_mul.
  rewrite Cabs_RtoC, Cabs_1, Cabs_0 by lra.
  rewrite Rmax_left by lra.
  rewrite fdiv_some by lra. cbn [bind].
  replace (x / 1) with x by field.
  assert (Hm : 0 < Rmin x (1 - atol) <= 1 - atol).
  { split; [apply Rmin_glb_lt; lra | apply Rmin_r]. }
  rewrite fdiv_some by lra. cbn [bind].
  rewrite flog_some by (apply Rdiv_lt_0_compat; lra). cbn [bind].
  rewrite angle_RtoC_pos by exact Hx.
  rewrite angle_C1.
  replace (0 - 0) with 0 by ring. rewrite Cexp_i_0.
  replace (1 - 0 ^ 2) with 1 by ring. fold C1.
  f_equal. unfold artanh. ring.
Qed.

(** From the origin, [exp] after [log] clamps a point of the positive real
    axis to the modulus [1 - atol]. *)
Lemma exp_log_real_axis (atol x : R) :
  0 < atol < 1 -> 0 < x ->
  exists t,
    log atol (RtoC x) C0 = Some t /\
    exp t C0 = Some (RtoC (Rmin x (1 - atol))).
Proof.
  intros Ha Hx.
  assert (Hm : 0 < Rmin x (1 - atol) <= 1 - atol).
  { split; [apply Rmin_glb_lt; lra | apply Rmin_r]. }
  exists (RtoC (artanh (Rmin x (1 - atol)))). split.
  - apply log_real_axis; auto.
  - rewrite exp_real_axis by (apply artanh_pos; lra).
    rewrite tanh_artanh by lra. reflexivity.
Qed.

(** ** The value of [exp] at the tangent vector 0.5 of the origin *)

Lemma exp_square_bounds (a l u l' u' : R) :
  0 <= l -> l < Rexp (- a) < u -> l' <= l * l -> u * u <= u' ->
  l' < Rexp (- (2 * a)) < u'.
Proof.
  intros Hl Ha Hl' Hu'.
  replace (- (2 * a)) with (- a + - a) by ring.
  rewrite exp_plus. nra.
Qed.

Lemma exp_minus_1_bounds : 367 / 1000 < Rexp (- (1)) < 369 / 1000.
Proof.
  assert (H256 : 996093750 / 1000000000 < Rexp (- (1 / 256)) < 996108950 / 1000000000).
  { pose proof (exp_ineq1 (- (1 / 256))) as Hlo.
    pose proof (exp_ineq1 (1 / 256)) as Hhi.
    pose proof (exp_pos (1 / 256)) as Hpos.
    rewrite exp_Ropp.
    assert (Hinv : / Rexp (1 / 256) < / (1 + 1 / 256)).
    { apply Rinv_lt_contravar; [ | lra]. apply Rmult_lt_0_compat; lra. }
    rewrite exp_Ropp in Hlo.
    replace (/ (1 + 1 / 256)) with (256 / 257) in Hinv by field.
    lra. }
  assert (H128 : 992202758 / 1000000000 < Rexp (- (1 / 128)) < 992233041 / 1000000000).
  { replace (1 / 128) with (2 * (1 / 256)) by field.
    apply (exp_square_bounds _ (996093750 / 1000000000) (996108950 / 1000000000)); [lra | exact H256 | lra | lra]. }
  assert (H64 : 984466312 / 1000000000 < Rexp (- (1 / 64)) < 984526408 / 1000000000).
  { replace (1 / 64) with (2 * (1 / 128)) by field.
    apply (exp_square_bounds _ (992202758 / 1000000000) (992233041 / 1000000000)); [lra | exact H128 | lra | lra]. }
  assert (H32 : 969173919 / 1000000000 < Rexp (- (1 / 32)) < 969292249 / 1000000000).
  { replace (1 / 32) with (2 * (1 / 64)) by field.
    apply (exp_square_bounds _ (984466312 / 1000000000) (984526408 / 1000000000)); [lra | exact H64 | lra | lra]. }
  assert (H16 : 939298085 / 1000000000 < Rexp (- (1 / 16)) < 939527464 / 1000000000).
  { replace (1 / 16) with (2 * (1 / 32)) by field.
    apply (exp_square_bounds _ (969173919 / 1000000000) (969292249 / 1000000000)); [lra | exact H32 | lra | lra]. }
  assert (H8 : 882280892 / 1000000000 < Rexp (- (1 / 8)) < 882711856 / 1000000000).
  { replace (1 / 8) with (2 * (1 / 16)) by field.
    apply (exp_square_bounds _ (939298085 / 1000000000) (939527464 / 1000000000)); [lra | exact H16 | lra | lra]. }
  assert (H4 : 778419572 / 1000000000 < Rexp (- (1 / 4)) < 779180221 / 1000000000).
  { replace (1 / 4) with (2 * (1 / 8)) by field.
    apply (exp_square_bounds _ (882280892 / 1000000000) (882711856 / 1000000000)); [lra | exact H8 | lra | lra]. }
  assert (H2 : 605937030 / 1000000000 < Rexp (- (1 / 2)) < 607121817 / 1000000000).
  { replace (1 / 2) with (2 * (1 / 4)) by field.
    apply (exp_square_bounds _ (778419572 / 1000000000) (779180221 / 1000000000)); [lra | exact H4 | lra | lra]. }
  assert (H1 : 367159684 / 1000000000 < Rexp (- (1 / 1)) < 368596901 / 1000000000).
  { replace (1 / 1) with (2 * (1 / 2)) by field.
    apply (exp_square_bounds _ (605937030 / 1000000000) (607121817 / 1000000000)); [lra | exact H2 | lra | lra]. }
  replace (1 / 1) with 1 in H1 by field. lra.
Qed.

Lemma tanh_half_bounds : 46 / 100 < tanh_ (1 / 2) < 47 / 100.
Proof.
  unfold tanh_. replace (2 * (1 / 2)) with 1 by field.
  pose proof exp_minus_1_bounds as [Hlo Hhi].
  set (x := Rexp (- (1))) in *.
  split.
  - apply Rmult_lt_reg_r with (1 + x); [lra | ].
    replace ((1 - x) / (1 + x) * (1 + x)) with (1 - x) by (field; lra). lra.
  - apply Rmult_lt_reg_r with (1 + x); [lra | ].
    replace ((1 - x) / (1 + x) * (1 + x)) with (1 - x) by (field; lra). lra.
Qed.

(** [tanh_] is the hyperbolic tangent of the standard library. *)
Lemma tanh_closed_form (x : R) : tanh_ x = tanh x.
Proof.
  unfold tanh_, tanh, sinh, cosh.
  replace (- (2 * x)) with (- x + - x) by ring.
  rewrite exp_plus, exp_Ropp.
  pose proof (exp_pos x) as He. set (e := Rexp x) in *.
  assert (0 < / e) by (apply Rinv_0_lt_compat, He).
  field. repeat split; try lra; nra.
Qed.

(** C2, as stated, fails: [exp] does not return 0.5 at [tangent_vec = 0.5],
    [base_point = 0]. *)
Lemma exp_half_at_origin_not_half : exp (RtoC (1 / 2)) C0 <> Some (RtoC (1 / 2)).
Proof.
  rewrite exp_real_axis by lra. intros H. injection H as H.
  pose proof tanh_half_bounds. lra.
Qed.

(** C2 (amended): at [base_point = 0] and [tangent_vec = 0.5], whatever the
    scale, which [exp] does not read, [exp] returns the real number
    [tanh(0.5) = (1 - e^-1) / (1 + e^-1)], which lies between 0.46 and
    0.47. *)
Theorem exp_half_at_origin :
  exp (RtoC (1 / 2)) C0 = Some (RtoC (tanh (1 / 2))) /\
  tanh (1 / 2) = (1 - Rexp (- (1))) / (1 + Rexp (- (1))) /\
  46 / 100 < tanh (1 / 2) < 47 / 100.
Proof.
  rewrite <- tanh_closed_form.
  split; [apply exp_real_axis; lra | ].
  split; [ | exact tanh_half_bounds].
  unfold tanh_. replace (2 * (1 / 2)) with 1 by field. reflexivity.
Qed.

(** C1, as stated, fails in its second half: a point of the disk closer to
    the unit circle than the tolerance is not recovered, [_tau] clamping
    its distance to the origin. *)
Lemma exp_log_clamped_near_boundary :
  Cabs C0 < 1 /\
  Cabs (RtoC (1 - 1 / (2 * 10 ^ 12))) < 1 /\
  exists t q,
    log (1 / 10 ^ 12) (RtoC (1 - 1 / (2 * 10 ^ 12))) C0 = Some t /\
    exp t C0 = Some q /\
    q <> RtoC (1 - 1 / (2 * 10 ^ 12)).
Proof.
  split; [rewrite Cabs_0; lra | ].
  split; [rewrite Cabs_RtoC; lra | ].
  destruct (exp_log_real_axis (1 / 10 ^ 12) (1 - 1 / (2 * 10 ^ 12)))
    as (t & Hlog & Hexp); [lra | lra | ].
  exists t, (RtoC (1 - 1 / 10 ^ 12)). split; [exact Hlog | ].
  split.
  - rewrite Hexp. rewrite Rmin_right by lra. reflexivity.
  - intros H. apply RtoC_inj in H. lra.
Qed.

(** C1 (amended): for every base point [b] of the open disk and the
    tolerance of the backend: for every tangent vector [t], [exp(t, b)] is
    a finite point and, when [_tau] stays unclamped at it,
    [log(exp(t, b), b) = t]; and for every point [p] of the open disk at
    which [_tau] stays unclamped, [exp(log(p, b), b) = p].  Unclamped at
    [p]: [|1 - b * conj(p)| > atol] and
    [|b - p| / |1 - b * conj(p)| < 1 - atol]. *)
Theorem exp_log_inverse (gs_atol : R) (b : C) :
  Cabs b < 1 ->
  (forall t,
     exists p,
       exp t b = Some p /\
       (Cabs (C1 - b * Cconj p) > gs_atol ->
        Cabs (b - p) / Cabs (C1 - b * Cconj p) < 1 - gs_atol ->
        log gs_atol p b = Some t)) /\
  (forall p,
     Cabs p < 1 ->
     Cabs (C1 - b * Cconj p) > gs_atol ->
     Cabs (b - p) / Cabs (C1 - b * Cconj p) < 1 - gs_atol ->
     exists t, log gs_atol p b = Some t /\ exp t b = Some p).
Proof.
  intros Hb. split.
  - intros t. eexists. split; [apply exp_closed_form, Hb | ].
    intros Hden Hdelta. apply log_exp_value; assumption.
  - intros p Hp Hden Hdelta. eexists. split.
    + apply log_closed_form; assumption.
    + apply exp_log_value; assumption.
Qed.

Lemma exp_log_inverse_witness :
  (exists p,
     exp (RtoC (1 / 2)) C0 = Some p /\
     log (1 / 10 ^ 12) p C0 = Some (RtoC (1 / 2))) /\
  (exists t,
     log (1 / 10 ^ 12) (RtoC (1 / 2)) C0 = Some t /\
     exp t C0 = Some (RtoC (1 / 2))).
Proof.
  destruct (exp_log_inverse (1 / 10 ^ 12) C0) as [Hfst Hsnd];
    [rewrite Cabs_0; lra | ].
  pose proof tanh_half_bounds as Hth.
  split.
  - destruct (Hfst (RtoC (1 / 2))) as (p & Hp & Hlog).
    exists p. split; [exact Hp | ].
    rewrite exp_real_axis in Hp by lra. injection Hp as Hp.
    apply Hlog; rewrite one_minus_0_mul, Cabs_1.
    + lra.
    + rewrite (Cabs_sub_sym C0), Csub_0_r, <- Hp, Cabs_RtoC by lra. lra.
  - apply Hsnd; rewrite ?one_minus_0_mul, ?Cabs_1.
    + rewrite Cabs_RtoC; lra.
    + lra.
    + rewrite (Cabs_sub_sym C0), Csub_0_r, Cabs_RtoC by lra. lra.
Defined.

(** * Further properties of the manifold *)

Lemma Cabs_projected (gs_atol : R) (p : C) :
  0 < gs_atol < 1 -> Cabs (projected gs_atol p) = Rmin (Cabs p) (1 - gs_atol).
Proof.
  intros H. destruct (Rle_dec (1 - gs_atol) (Cabs p)) as [Hp|Hp].
  - rewrite Cabs_projected_outside, Rmin_right by auto. reflexivity.
  - rewrite projected_inside, Rmin_left by lra. reflexivity.
Qed.

(** X1: the tolerance of the backend being in (0, 1), [projection] never
    fails, keeps the shape and the number of components, and maps each
    component to the point of the same angle whose modulus is the smaller
    of the component's modulus and [1 - tol]. *)
Theorem projection_clamps_modulus (gs_atol : R) (point : ndarray C) :
  0 < gs_atol < 1 ->
  exists q,
    projection gs_atol point = Some q /\
    shape q = shape point /\
    length (data q) = length (data point) /\
    forall i p,
      nth_error (data point) i = Some p ->
      exists p',
        nth_error (data q) i = Some p' /\
        Cabs p' = Rmin (Cabs p) (1 - gs_atol) /\
        angle p' = angle p.
Proof.
  intros H. eexists. split; [apply projection_total, H | ]. cbn [shape data].
  split; [reflexivity | ]. split; [apply length_map | ].
  intros i p Hi. exists (projected gs_atol p).
  split; [rewrite nth_error_map, Hi; reflexivity | ].
  split; [apply Cabs_projected, H | apply angle_projected, H].
Qed.

Lemma projection_clamps_modulus_witness :
  exists q,
    projection (1 / 10 ^ 12) (mk_ndarray [2%nat; 1%nat] [(3, 4); (0, 1 / 2)]) = Some q /\
    shape q = [2%nat; 1%nat] /\
    length (data q) = 2%nat /\
    forall i p,
      nth_error [(3, 4); (0, 1 / 2)] i = Some p ->
      exists p',
        nth_error (data q) i = Some p' /\
        Cabs p' = Rmin (Cabs p) (1 - 1 / 10 ^ 12) /\
        angle p' = angle p.
Proof.
  apply (projection_clamps_modulus (1 / 10 ^ 12)
           (mk_ndarray [2%nat; 1%nat] [(3, 4); (0, 1 / 2)])).
  lra.
Defined.

(** X2: the tolerance of the backend being in (0, 1), every array of an
    accepted shape, [(n,)] or [(n, 1)], passes [belongs] at each of its [n]
    entries once projected, wherever its points were. *)
Theorem belongs_after_projection (gs_atol atol : R) (point : ndarray C) (n : nat) :
  0 < gs_atol < 1 ->
  shape point = [n] \/ shape point = [n; 1%nat] ->
  exists q,
    projection gs_atol point = Some q /\
    belongs q atol = Some (repeat true n).
Proof.
  intros H Hsh. eexists. split; [apply projection_total, H | ].
  apply belongs_all_true; cbn [shape data]; [exact Hsh | ].
  apply Forall_forall. intros q Hq. apply in_map_iff in Hq as (p & <- & _).
  apply Cabs_projected_lt_1, H.
Qed.

Lemma belongs_after_projection_witness :
  exists q,
    projection (1 / 10 ^ 12) (mk_ndarray [2%nat; 1%nat] [(3, 4); (0, 1 / 2)]) = Some q /\
    belongs q (1 / 10 ^ 12) = Some (repeat true 2).
Proof.
  apply (belongs_after_projection (1 / 10 ^ 12) (1 / 10 ^ 12)
           (mk_ndarray [2%nat; 1%nat] [(3, 4); (0, 1 / 2)]) 2).
  - lra.
  - right. reflexivity.
Defined.

(** X3: [belongs] raises on an array of rank 0; on any other array it
    returns as many answers as the first dimension, and all of them are
    false when the shape is not an accepted one, wherever the points are. *)
Theorem belongs_shape_behaviour (point : ndarray C) (atol : R) :
  (shape point = [] -> belongs point atol = None) /\
  (forall r, belongs point atol = Some r -> length r = hd 0%nat (shape point)) /\
  (forall n sh,
     shape point = n :: sh -> ~ accepted_shape (n :: sh) ->
     belongs point atol = Some (repeat false n)).
Proof.
  unfold belongs. split; [intros ->; reflexivity | ]. split.
  - intros r. destruct (shape point) as [|n sh]; [discriminate | ].
    intros Hr. injection Hr as <-. rewrite !length_map, length_seq. reflexivity.
  - intros n sh Hsh Hacc. rewrite Hsh.
    rewrite <- is_scalar_accepted in Hacc. apply not_true_is_false in Hacc.
    rewrite Hacc. f_equal. rewrite map_map. cbn [andb].
    rewrite map_const, length_seq. reflexivity.
Qed.

Lemma combine_map_same {A B D : Type} (f : A -> B) (h : A -> D) (l : list A) :
  combine (map f l) (map h l) = map (fun a => (f a, h a)) l.
Proof. induction l as [|a l IH]; simpl; [ | rewrite IH]; reflexivity. Qed.

Lemma sample_of_draws (gs_atol bound x y : R) :
  ((((RtoC x + Ci * RtoC y) - ((1 / 2)%R, (1 / 2)%R)) / RtoC 2)
   * RtoC (1 - gs_atol) * RtoC bound)%C = sample gs_atol bound x y.
Proof.
  apply C_eq; unfold sample, Cdiv, Cinv, Cnorm2; simpl; field.
Qed.

Lemma random_point_size (n_samples : nat) :
  size_of (if (n_samples =? 1)%nat then [1%nat] else [n_samples; 1%nat]) = n_samples.
Proof.
  destruct (Nat.eqb_spec n_samples 1) as [-> | _]; simpl; lia.
Qed.

Lemma random_point_value (gs_atol : R) (n_samples : nat) (bound : R) (g : rng) :
  0 < gs_atol < 1 ->
  fst (random_point gs_atol n_samples bound g) =
    Some (mk_ndarray
            (if (n_samples =? 1)%nat then [1%nat] else [n_samples; 1%nat])
            (map (fun i => projected gs_atol
                             (sample gs_atol bound (g i) (g (n_samples + i)%nat)))
                 (seq 0 n_samples))).
Proof.
  intros H. unfold random_point, rand. cbn [fst snd data].
  rewrite !random_point_size.
  rewrite projection_total by exact H. cbn [shape data]. do 2 f_equal.
  rewrite (map_map g RtoC), combine_map_same, !map_map.
  apply map_ext. intros i. f_equal. apply sample_of_draws.
Qed.

(** X4: the tolerance of the backend being in (0, 1), [random_point]
    returns an array of shape [(1,)] when [n_samples] is 1 and
    [(n_samples, 1)] otherwise; its [i]-th point is the projection of the
    point of real part [(1 - tol) * bound * (x - 1/2) / 2] and imaginary
    part [(1 - tol) * bound * (y - 1/2) / 2], where [x] is the [i]-th draw
    and [y] the [(n_samples + i)]-th; and the generator is left
    [2 * n_samples] draws further. *)
Theorem random_point_closed_form (gs_atol : R) (n_samples : nat) (bound : R) (g : rng) :
  0 < gs_atol < 1 ->
  fst (random_point gs_atol n_samples bound g) =
    Some (mk_ndarray
            (if (n_samples =? 1)%nat then [1%nat] else [n_samples; 1%nat])
            (map (fun i => projected gs_atol
                             (sample gs_atol bound (g i) (g (n_samples + i)%nat)))
                 (seq 0 n_samples))) /\
  forall i, snd (random_point gs_atol n_samples bound g) i = g (2 * n_samples + i)%nat.
Proof.
  intros H. split; [apply random_point_value, H | ].
  intros i. unfold random_point, rand. cbn [snd].
  rewrite !random_point_size. f_equal. lia.
Qed.

Lemma random_point_closed_form_witness :
  fst (random_point (1 / 10 ^ 12) 3 5 (fun i => / INR (i + 2))) =
    Some (mk_ndarray
            (if (3 =? 1)%nat then [1%nat] else [3%nat; 1%nat])
            (map (fun i => projected (1 / 10 ^ 12)
                             (sample (1 / 10 ^ 12) 5 (/ INR (i + 2))
                                     (/ INR ((3 + i) + 2))))
                 (seq 0 3))) /\
  forall i, snd (random_point (1 / 10 ^ 12) 3 5 (fun i => / INR (i + 2))) i
            = / INR ((2 * 3 + i) + 2).
Proof.
  apply (random_point_closed_form (1 / 10 ^ 12) 3 5 (fun i => / INR (i + 2))).
  lra.
Defined.

Lemma sample_in_square (gs_atol bound x y : R) :
  0 < gs_atol < 1 -> 0 < bound -> 0 <= x < 1 -> 0 <= y < 1 ->
  Rabs (Re (sample gs_atol bound x y)) <= (1 - gs_atol) * bound / 4 /\
  Rabs (Im (sample gs_atol bound x y)) <= (1 - gs_atol) * bound / 4.
Proof.
  intros Ha Hb Hx Hy. unfold sample; simpl.
  assert (Hc : 0 < (1 - gs_atol) * bound / 2) by nra.
  split; apply Rabs_le; split; nra.
Qed.

Lemma sq_lt (r m : R) : 0 <= r -> 0 < m -> r * r < m * m -> r < m.
Proof. intros Hr Hm H. destruct (Rlt_le_dec r m); [assumption | nra]. Qed.

Lemma Cabs_le_of_square (z : C) (c : R) :
  0 <= c -> Rabs (Re z) <= c -> Rabs (Im z) <= c -> Cabs z * Cabs z <= 2 * (c * c).
Proof.
  intros Hc Hre Him. rewrite Cabs_sqr. unfold Cnorm2.
  unfold Rabs in Hre, Him.
  destruct (Rcase_abs (Re z)), (Rcase_abs (Im z)); nra.
Qed.

(** X5: the tolerance of the backend being in (0, 1), the draws in [0, 1)
    and the bound at most 2, the final projection of [random_point] changes
    nothing and every sample lies in the square of half-side
    [(1 - tol) * bound / 4] around the origin: its modulus is below
    [1 - tol], and with the default bound of 1 no sample is farther from the
    origin than [0.36]. *)
Theorem random_point_in_square (gs_atol : R) (n_samples : nat) (bound : R) (g : rng) :
  0 < gs_atol < 1 -> 0 < bound <= 2 -> (forall i, 0 <= g i < 1) ->
  exists samples,
    fst (random_point gs_atol n_samples bound g) = Some samples /\
    data samples =
      map (fun i => sample gs_atol bound (g i) (g (n_samples + i)%nat))
          (seq 0 n_samples) /\
    Forall (fun p =>
              Rabs (Re p) <= (1 - gs_atol) * bound / 4 /\
              Rabs (Im p) <= (1 - gs_atol) * bound / 4 /\
              Cabs p < 1 - gs_atol /\
              Cabs p < 36 / 100 * bound)
           (data samples).
Proof.
  intros Ha Hb Hg.
  assert (Hsample : forall x y, 0 <= x < 1 -> 0 <= y < 1 ->
            Rabs (Re (sample gs_atol bound x y)) <= (1 - gs_atol) * bound / 4 /\
            Rabs (Im (sample gs_atol bound x y)) <= (1 - gs_atol) * bound / 4 /\
            Cabs (sample gs_atol bound x y) < 1 - gs_atol /\
            Cabs (sample gs_atol bound x y) < 36 / 100 * bound).
  { intros x y Hx Hy.
    destruct (sample_in_square gs_atol bound x y) as [Hre Him]; try lra.
    split; [exact Hre | ]. split; [exact Him | ].
    pose proof (Cabs_le_of_square _ ((1 - gs_atol) * bound / 4)
                  ltac:(nra) Hre Him) as Hsq.
    pose proof (Cabs_nonneg (sample gs_atol bound x y)) as Hnn.
    set (r := Cabs (sample gs_atol bound x y)) in *.
    set (c := (1 - gs_atol) * bound / 4) in *.
    assert (Hc : 0 < c) by (unfold c; nra).
    assert (Hc1 : c <= (1 - gs_atol) / 2) by (unfold c; nra).
    assert (Hc2 : c < bound / 4) by (unfold c; nra).
    split; apply sq_lt; nra. }
  pose proof (random_point_value gs_atol n_samples bound g Ha) as Hfst.
  eexists. split; [exact Hfst | ]. cbn [data].
  assert (Hid : map (fun i => projected gs_atol
                                (sample gs_atol bound (g i) (g (n_samples + i)%nat)))
                    (seq 0 n_samples) =
                map (fun i => sample gs_atol bound (g i) (g (n_samples + i)%nat))
                    (seq 0 n_samples)).
  { apply map_ext. intros i. apply projected_inside.
    apply (Hsample (g i) (g (n_samples + i)%nat)); apply Hg. }
  rewrite Hid. split; [reflexivity | ].
  apply Forall_forall. intros p Hp. apply in_map_iff in Hp as (i & <- & _).
  apply Hsample; apply Hg.
Qed.

Lemma random_point_in_square_witness :
  exists samples,
    fst (random_point (1 / 10 ^ 12) 3 1 (fun i => / INR (i + 2))) = Some samples /\
    data samples =
      map (fun i => sample (1 / 10 ^ 12) 1 (/ INR (i + 2)) (/ INR ((3 + i) + 2)))
          (seq 0 3) /\
    Forall (fun p =>
              Rabs (Re p) <= (1 - 1 / 10 ^ 12) * 1 / 4 /\
              Rabs (Im p) <= (1 - 1 / 10 ^ 12) * 1 / 4 /\
              Cabs p < 1 - 1 / 10 ^ 12 /\
              Cabs p < 36 / 100 * 1)
           (data samples).
Proof.
  apply (random_point_in_square (1 / 10 ^ 12) 3 1 (fun i => / INR (i + 2))).
  - lra.
  - lra.
  - intros i. rewrite plus_INR. pose proof (pos_INR i) as Hi. simpl.
    assert (Hpos : 0 < INR i + (1 + 1)) by lra.
    split.
    + apply Rlt_le, Rinv_0_lt_compat, Hpos.
    + rewrite <- Rinv_1. apply Rinv_lt_contravar; lra.
Defined.

(** * Further properties of the metric *)

(** ** The inner product *)

Lemma metric_base_neq_0 (b : C) : Cabs b <> 1 -> 1 - Cabs b ^ 2 <> 0.
Proof.
  intros Hb H. pose proof (Cabs_nonneg b) as H0. apply Hb. nra.
Qed.

Lemma metric_den_neq_0 (b : C) : Cabs b <> 1 -> (1 - Cabs b ^ 2) ^ 2 <> 0.
Proof.
  intros Hb H. apply (metric_base_neq_0 b Hb). nra.
Qed.

Lemma metric_den_pos (b : C) : Cabs b <> 1 -> 0 < (1 - Cabs b ^ 2) ^ 2.
Proof.
  intros Hb. pose proof (metric_base_neq_0 b Hb) as H.
  set (x := 1 - Cabs b ^ 2) in *.
  replace (x ^ 2) with (x * x) by ring.
  destruct (Rtotal_order x 0) as [Hx | [Hx | Hx]]; [nra | contradiction | nra].
Qed.

Lemma sqr_nonneg (x : R) : 0 <= x ^ 2.
Proof. replace (x ^ 2) with (x * x) by ring. nra. Qed.

Lemma sqr_pos (x : R) : x <> 0 -> 0 < x ^ 2.
Proof.
  intros H. replace (x ^ 2) with (x * x) by ring.
  destruct (Rtotal_order x 0) as [Hx | [Hx | Hx]]; [nra | contradiction | nra].
Qed.

Lemma inner_product_matrix_value (scale : R) (b : C) :
  Cabs b <> 1 ->
  inner_product_matrix scale b = Some (RtoC (scale ^ 2 / (1 - Cabs b ^ 2) ^ 2)).
Proof.
  intros Hb. unfold inner_product_matrix.
  rewrite fdiv_some by (apply metric_den_neq_0, Hb). cbn [bind].
  f_equal. rewrite <- RtoC_mul. f_equal. field. apply metric_base_neq_0, Hb.
Qed.

Lemma inner_product_value (scale : R) (a b p : C) :
  Cabs p <> 1 ->
  inner_product scale a b p =
  Some (Cconj a * RtoC (scale ^ 2 / (1 - Cabs p ^ 2) ^ 2) * b)%C.
Proof.
  intros Hp. unfold inner_product.
  rewrite inner_product_matrix_value by exact Hp. reflexivity.
Qed.

(** X6: the inner-product matrix is finite exactly off the unit circle, a
    point outside the disk included; it is then a non-negative real number,
    [scale^2 / (1 - |base_point|^2)^2], positive when the scale is not 0. *)
Theorem inner_product_matrix_finite_iff (scale : R) (b : C) :
  (Cabs b = 1 -> inner_product_matrix scale b = None) /\
  (Cabs b <> 1 ->
   exists m,
     inner_product_matrix scale b = Some (RtoC m) /\
     m = scale ^ 2 / (1 - Cabs b ^ 2) ^ 2 /\
     0 <= m /\ (scale <> 0 -> 0 < m)).
Proof.
  split.
  - intros Hb. unfold inner_product_matrix. rewrite Hb.
    replace ((1 - 1 ^ 2) ^ 2) with 0 by ring. rewrite fdiv_none. reflexivity.
  - intros Hb. pose proof (metric_den_pos b Hb) as Hpos.
    exists (scale ^ 2 / (1 - Cabs b ^ 2) ^ 2).
    split; [apply inner_product_matrix_value, Hb | ].
    split; [reflexivity | ]. split.
    + apply Rmult_le_pos; [apply sqr_nonneg | apply Rlt_le, Rinv_0_lt_compat, Hpos].
    + intros Hs. apply Rdiv_lt_0_compat; [apply sqr_pos, Hs | exact Hpos].
Qed.

(** X7: off the unit circle the inner product is finite and Hermitian:
    exchanging the two tangent vectors conjugates it. *)
Theorem inner_product_hermitian (scale : R) (a b p : C) :
  Cabs p <> 1 ->
  exists v,
    inner_product scale a b p = Some v /\
    inner_product scale b a p = Some (Cconj v).
Proof.
  intros Hp. eexists. split; [apply inner_product_value, Hp | ].
  rewrite inner_product_value by exact Hp. f_equal.
  rewrite !Cconj_mul, Cconj_conj, Cconj_RtoC. ring.
Qed.

Lemma inner_product_hermitian_witness :
  exists v,
    inner_product 2 (1, 2) (3, -1) (1 / 2, 0) = Some v /\
    inner_product 2 (3, -1) (1, 2) (1 / 2, 0) = Some (Cconj v).
Proof.
  apply (inner_product_hermitian 2 (1, 2) (3, -1) (1 / 2, 0)).
  rewrite Cabs_real_pos; lra.
Defined.

(** X8: off the unit circle the inner product is sesquilinear: additive in
    each tangent vector, linear in the second one and conjugate-linear in
    the first. *)
Theorem inner_product_sesquilinear (scale : R) (p : C) :
  Cabs p <> 1 ->
  exists f : C -> C -> C,
    (forall a b, inner_product scale a b p = Some (f a b)) /\
    (forall a b c, f a (b + c)%C = (f a b + f a c)%C) /\
    (forall a b c, f (a + b)%C c = (f a c + f b c)%C) /\
    (forall k a b, f a (k * b)%C = (k * f a b)%C) /\
    (forall k a b, f (k * a)%C b = (Cconj k * f a b)%C).
Proof.
  intros Hp.
  exists (fun a b => (Cconj a * RtoC (scale ^ 2 / (1 - Cabs p ^ 2) ^ 2) * b)%C).
  split; [intros a b; apply inner_product_value, Hp | ].
  repeat split; intros; rewrite ?Cconj_add, ?Cconj_mul; ring.
Qed.

Lemma inner_product_sesquilinear_witness :
  exists f : C -> C -> C,
    (forall a b, inner_product 2 a b (0, 3) = Some (f a b)) /\
    (forall a b c, f a (b + c)%C = (f a b + f a c)%C) /\
    (forall a b c, f (a + b)%C c = (f a c + f b c)%C) /\
    (forall k a b, f a (k * b)%C = (k * f a b)%C) /\
    (forall k a b, f (k * a)%C b = (Cconj k * f a b)%C).
Proof.
  apply (inner_product_sesquilinear 2 (0, 3)).
  rewrite Cabs_imag_pos; lra.
Defined.

Lemma squared_norm_value (scale : R) (v b : C) :
  Cabs b <> 1 ->
  squared_norm scale v b = Some (scale ^ 2 * Cabs v ^ 2 / (1 - Cabs b ^ 2) ^ 2).
Proof.
  intros Hb. unfold squared_norm. rewrite inner_product_value by exact Hb.
  cbn [bind]. f_equal. rewrite (Cabs_pow2 v). unfold Cnorm2.
  pose proof (metric_base_neq_0 b Hb) as Hbase.
  set (D := 1 - Cabs b ^ 2) in *. simpl. field. exact Hbase.
Qed.

(** X9: off the unit circle the squared norm of a vector is
    [scale^2 * |vector|^2 / (1 - |base_point|^2)^2]: it is never negative
    and, the scale not being 0, it vanishes for the zero vector only. *)
Theorem squared_norm_positive_definite (scale : R) (v b : C) :
  Cabs b <> 1 ->
  exists n,
    squared_norm scale v b = Some n /\
    n = scale ^ 2 * Cabs v ^ 2 / (1 - Cabs b ^ 2) ^ 2 /\
    0 <= n /\
    (scale <> 0 -> (n = 0 <-> v = C0)).
Proof.
  intros Hb. pose proof (metric_den_neq_0 b Hb) as Hd.
  pose proof (metric_den_pos b Hb) as Hpos.
  pose proof (Cabs_nonneg v) as Hv.
  exists (scale ^ 2 * Cabs v ^ 2 / (1 - Cabs b ^ 2) ^ 2).
  split; [apply squared_norm_value, Hb | ].
  split; [reflexivity | ]. split.
  { apply Rmult_le_pos; [ | apply Rlt_le, Rinv_0_lt_compat, Hpos].
    apply Rmult_le_pos; apply sqr_nonneg. }
  intros Hs. split.
  - intros Hn. apply Cabs_eq_0.
    assert (Hnum : scale ^ 2 * Cabs v ^ 2 = 0).
    { apply Rmult_eq_reg_r with (/ (1 - Cabs b ^ 2) ^ 2).
      - rewrite Rmult_0_l. exact Hn.
      - apply Rinv_neq_0_compat, Hd. }
    pose proof (sqr_pos scale Hs) as Hs2.
    assert (Hv2 : Cabs v ^ 2 = 0) by nra.
    replace (Cabs v ^ 2) with (Cabs v * Cabs v) in Hv2 by ring. nra.
  - intros ->. rewrite Cabs_0. unfold Rdiv. ring.
Qed.

Lemma squared_norm_positive_definite_witness :
  exists n,
    squared_norm 2 (1, 2) (1 / 2, 0) = Some n /\
    n = 2 ^ 2 * Cabs (1, 2) ^ 2 / (1 - Cabs (1 / 2, 0) ^ 2) ^ 2 /\
    0 <= n /\
    (2 <> 0 -> (n = 0 <-> (1, 2) = C0)).
Proof.
  apply (squared_norm_positive_definite 2 (1, 2) (1 / 2, 0)).
  rewrite Cabs_real_pos; lra.
Defined.

(** ** The exponential map *)

Lemma exp_zero_in_disk (b : C) : Cabs b < 1 -> exp C0 b = Some b.
Proof.
  intros Hb. pose proof (Cabs_nonneg b) as Hnn.
  rewrite exp_closed_form by exact Hb.
  rewrite angle_0, Cexp_i_0, Cabs_0.
  replace (2 * 0 / (1 - Cabs b ^ 2)) with 0 by (field; nra).
  rewrite Ropp_0, exp_0. f_equal. unfold exp_value. fold C1. field.
  intros H. apply (f_equal Re) in H. simpl in H. lra.
Qed.

(** X10: at every base point of the open disk, the exponential of the
    zero tangent vector is the base point. *)
Theorem exp_zero_vector (b : C) : Cabs b < 1 -> exp C0 b = Some b.
Proof.
  intros Hlt.
  assert (Hb : Cabs b <> 1) by lra.
  unfold exp.
  rewrite fdiv_some by (apply metric_base_neq_0, Hb). cbn [bind].
  rewrite angle_0, Cexp_i_0, Cabs_0.
  replace (2 * 0 / (1 - Cabs b ^ 2)) with 0
    by (field; apply metric_base_neq_0, Hb).
  rewrite Ropp_0, exp_0. fold C1.
  rewrite cdiv_some.
  - f_equal. field. intros H. apply (f_equal Re) in H. simpl in H. lra.
  - intros H. apply (f_equal Re) in H. simpl in H. lra.
Qed.

Lemma exp_zero_vector_witness : exp C0 (0, 1 / 3) = Some (0, 1 / 3).
Proof.
  apply (exp_zero_vector (0, 1 / 3)). rewrite Cabs_imag_pos; lra.
Defined.

(** X12: from a base point of the open disk, and where [_tau] stays
    unclamped at the point reached, the exponential map moves by the norm
    of the tangent vector: [dist(b, exp(t, b)) = scale * |t| / (1 - |b|^2)]
    and [squared_dist(b, exp(t, b)) = squared_norm(t, b)]. *)
Theorem exp_radial_isometry (atol scale : R) (t b : C) :
  Cabs b < 1 ->
  exists p,
    exp t b = Some p /\
    (Cabs (C1 - b * Cconj p) > atol ->
     Cabs (b - p) / Cabs (C1 - b * Cconj p) < 1 - atol ->
     dist scale b p atol = Some (Cabs t / (1 - Cabs b ^ 2) * scale) /\
     squared_dist scale b p atol = squared_norm scale t b).
Proof.
  intros Hb. eexists. split; [apply exp_closed_form, Hb | ].
  intros Hden Hdelta.
  pose proof (tau_exp t b Hb atol Hden Hdelta) as Htau.
  split; [apply dist_of_tau, Htau | ].
  rewrite (squared_dist_of_tau scale _ _ atol _ Htau).
  rewrite squared_norm_value by lra. f_equal. field.
  apply metric_base_neq_0. lra.
Qed.

Lemma exp_radial_isometry_witness :
  exists p,
    exp (RtoC (1 / 2)) C0 = Some p /\
    dist 2 C0 p (1 / 10 ^ 12) = Some (Cabs (RtoC (1 / 2)) / (1 - Cabs C0 ^ 2) * 2) /\
    squared_dist 2 C0 p (1 / 10 ^ 12) = squared_norm 2 (RtoC (1 / 2)) C0.
Proof.
  destruct (exp_radial_isometry (1 / 10 ^ 12) 2 (RtoC (1 / 2)) C0)
    as (p & Hp & Hiso); [rewrite Cabs_0; lra | ].
  exists p. split; [exact Hp | ].
  pose proof tanh_half_bounds as Hth.
  rewrite exp_real_axis in Hp by lra. injection Hp as Hp.
  apply Hiso; rewrite one_minus_0_mul, Cabs_1.
  - lra.
  - rewrite (Cabs_sub_sym C0), Csub_0_r, <- Hp, Cabs_RtoC by lra. lra.
Defined.





(** ** The logarithm map and the distance *)

Lemma log_value (gs_atol : R) (p b : C) :
  0 < gs_atol <= 1 ->
  log gs_atol p b =
  Some (RtoC (artanh (delta b p gs_atol))
        * Cexp (Ci * RtoC (angle (p - b) - angle (C1 - Cconj b * p)))
        * RtoC (1 - Cabs b ^ 2))%C.
Proof.
  intros [H0 H1]. unfold log. rewrite tau_some by lra. reflexivity.
Qed.

(** X14: with a tolerance of (0, 1], the logarithm of a point at itself is
    the zero tangent vector, wherever the point is. *)
Theorem log_at_itself (gs_atol : R) (b : C) :
  0 < gs_atol <= 1 -> log gs_atol b b = Some C0.
Proof.
  intros H. rewrite log_value by exact H.
  rewrite delta_diag, artanh_0 by lra. fold C0. f_equal. ring.
Qed.

Lemma log_at_itself_witness : log (1 / 10 ^ 12) (3, 4) (3, 4) = Some C0.
Proof. apply (log_at_itself (1 / 10 ^ 12) (3, 4)). lra. Defined.

(** X15: off the unit circle and with a tolerance of (0, 1], the logarithm
    is finite and its squared norm at the base point is the squared
    distance between the base point and the point, whether [_tau] clamps or
    not. *)
Theorem squared_norm_log (gs_atol scale : R) (p b : C) :
  0 < gs_atol <= 1 -> Cabs b <> 1 ->
  exists t,
    log gs_atol p b = Some t /\
    squared_norm scale t b = squared_dist scale b p gs_atol.
Proof.
  intros [H0 H1] Hb. eexists. split; [apply log_value; lra | ].
  rewrite squared_norm_value by exact Hb.
  rewrite (squared_dist_of_tau scale b p gs_atol _ (tau_some b p gs_atol H0 H1)).
  f_equal. rewrite Cabs_pow2, !Cnorm2_mul, Cnorm2_Cexp_i, !Cnorm2_RtoC.
  field. apply metric_base_neq_0, Hb.
Qed.

Lemma squared_norm_log_witness :
  exists t,
    log (1 / 10 ^ 12) (0, 1 / 3) (1 / 2, 0) = Some t /\
    squared_norm 2 t (1 / 2, 0) =
    squared_dist 2 (1 / 2, 0) (0, 1 / 3) (1 / 10 ^ 12).
Proof.
  apply (squared_norm_log (1 / 10 ^ 12) 2 (0, 1 / 3) (1 / 2, 0)).
  - lra.
  - rewrite Cabs_real_pos; lra.
Defined.

(** X17: the distance is linear in the scale and the squared distance
    quadratic: with the scale [k] they are [k] times and [k^2] times what
    they are with the scale 1, finite or not. *)
Theorem dist_scale_linearity (k : R) (a b : C) (atol : R) :
  dist k a b atol = option_map (fun d => k * d) (dist 1 a b atol) /\
  squared_dist k a b atol =
  option_map (fun d => k ^ 2 * d) (squared_dist 1 a b atol).
Proof.
  unfold dist, squared_dist.
  destruct (_tau a b atol) as [t|]; cbn [bind option_map]; [ | split; reflexivity].
  split; f_equal; ring.
Qed.

(** X18: a tolerance above 1 defeats [_tau]: between 1 and 2 it returns the
    same negative number [artanh(1 - atol)] for every pair of points, so
    that [dist] no longer depends on the points; from 2 on the logarithm
    leaves its domain for every pair of points. *)
Theorem tau_large_tolerance (a b : C) (atol : R) :
  (1 < atol < 2 ->
   _tau a b atol = Some (artanh (1 - atol)) /\ artanh (1 - atol) < 0 /\
   forall scale, dist scale a b atol = Some (artanh (1 - atol) * scale)) /\
  (2 <= atol -> _tau a b atol = None /\ forall scale, dist scale a b atol = None).
Proof.
  pose proof (Cabs_nonneg (a - b)) as Hnum.
  pose proof (Rmax_r (Cabs (C1 - a * Cconj b)) atol) as Hmax.
  assert (Hdelta : 1 < atol -> delta a b atol = 1 - atol).
  { intros H1. unfold delta. apply Rmin_right.
    apply Rle_trans with 0; [lra | ].
    apply Rmult_le_pos; [exact Hnum | ].
    apply Rlt_le, Rinv_0_lt_compat. lra. }
  split.
  - intros [H1 H2].
    assert (Htau : _tau a b atol = Some (artanh (1 - atol))).
    { rewrite <- (Hdelta H1). apply tau_closed_form; [lra | ].
      rewrite (Hdelta H1). lra. }
    split; [exact Htau | ]. split.
    + unfold artanh.
      assert (ln ((1 + (1 - atol)) / (1 - (1 - atol))) < ln 1).
      { apply ln_increasing; [apply Rdiv_lt_0_compat; lra | ].
        apply Rmult_lt_reg_r with (1 - (1 - atol)); [lra | ].
        replace ((1 + (1 - atol)) / (1 - (1 - atol)) * (1 - (1 - atol)))
          with (1 + (1 - atol)) by (field; lra).
        lra. }
      rewrite ln_1 in *. lra.
    + intros scale. apply dist_of_tau, Htau.
  - intros H2.
    assert (Htau : _tau a b atol = None).
    { unfold _tau. rewrite fdiv_some by lra. cbn [bind].
      fold (delta a b atol). rewrite Hdelta by lra.
      rewrite fdiv_some by lra. cbn [bind].
      unfold flog.
      destruct (Rlt_dec 0 ((1 + (1 - atol)) / (1 - (1 - atol)))) as [Hpos | _];
        [ | reflexivity].
      exfalso.
      assert (Hle : (1 + (1 - atol)) / (1 - (1 - atol)) <= 0).
      { apply Rmult_le_reg_r with (1 - (1 - atol)); [lra | ].
        replace ((1 + (1 - atol)) / (1 - (1 - atol)) * (1 - (1 - atol)))
          with (1 + (1 - atol)) by (field; lra).
        lra. }
      lra. }
    split; [exact Htau | ]. intros scale. unfold dist. rewrite Htau. reflexivity.
Qed.

(** ** The exponential of the logarithm, from the origin *)

Lemma delta_origin (p : C) (atol : R) :
  0 < atol < 1 -> delta C0 p atol = Rmin (Cabs p) (1 - atol).
Proof.
  intros [H0 H1]. unfold delta.
  rewrite (Cabs_sub_sym C0), Csub_0_r, one_minus_0_mul, Cabs_1.
  rewrite Rmax_left by lra. f_equal. field.
Qed.

Lemma projected_as_scaling (atol : R) (p : C) :
  0 < atol < 1 -> p <> C0 ->
  projected atol p = (RtoC (Rmin (Cabs p) (1 - atol) / Cabs p) * p)%C.
Proof.
  intros [H0 H1] Hp. pose proof (Cabs_pos p Hp) as Hr.
  destruct (Rle_dec (1 - atol) (Cabs p)) as [Hle | Hgt].
  - rewrite projected_outside, Rmin_right by lra. reflexivity.
  - rewrite projected_inside, Rmin_left by lra.
    replace (Cabs p / Cabs p) with 1 by (field; lra). fold C1. ring.
Qed.

Lemma log_from_origin (atol : R) (p : C) :
  0 < atol < 1 -> p <> C0 ->
  log atol p C0 =
  Some (RtoC (artanh (Rmin (Cabs p) (1 - atol)) / Cabs p) * p)%C.
Proof.
  intros Ha Hp. pose proof (Cabs_pos p Hp) as Hr.
  rewrite log_value by lra. rewrite delta_origin by exact Ha.
  rewrite Csub_0_r, one_minus_conj_0_mul, angle_C1, Rminus_0_r.
  rewrite Cexp_i_angle by exact Hp.
  rewrite Cabs_0. replace (1 - 0 ^ 2) with 1 by ring. fold C1.
  rewrite RtoC_div by lra. f_equal. field. apply RtoC_neq_0. lra.
Qed.

Lemma exp_from_origin (c : R) (p : C) :
  0 < c -> p <> C0 ->
  exp (RtoC c * p) C0 = Some (RtoC (tanh_ (c * Cabs p) / Cabs p) * p)%C.
Proof.
  intros Hc Hp. pose proof (Cabs_pos p Hp) as Hr.
  rewrite exp_closed_form by (rewrite Cabs_0; lra).
  rewrite angle_scale, Cexp_i_angle, Cabs_scale, Cabs_0 by (auto; lra).
  replace (2 * (c * Cabs p) / (1 - 0 ^ 2)) with (2 * (c * Cabs p)) by field.
  f_equal. unfold exp_value, tanh_.
  pose proof (exp_pos (- (2 * (c * Cabs p)))) as HE.
  set (E := Rexp (- (2 * (c * Cabs p)))) in *.
  rewrite !RtoC_div, RtoC_sub, RtoC_add by lra. fold C1.
  replace (Cconj C0) with C0 by (apply C_eq; simpl; ring).
  field. repeat split.
  - change ((RtoC 1 + RtoC E)%C <> C0).
    rewrite <- RtoC_add. apply RtoC_neq_0. lra.
  - apply RtoC_neq_0. lra.
  - rewrite <- RtoC_mul, <- RtoC_add. apply RtoC_neq_0. nra.
Qed.

(** X19: with a tolerance of (0, 1), taking the logarithm of any complex
    point at the origin and then the exponential from the origin is the
    projection of the point, the tolerance of the projection being that of
    the logarithm: the point itself when its modulus is below [1 - atol],
    the point of the same angle and of modulus [1 - atol] otherwise. *)
Theorem exp_log_at_origin_is_projection (atol : R) (p : C) :
  0 < atol < 1 ->
  exists t,
    log atol p C0 = Some t /\
    exp t C0 = projection_at atol p.
Proof.
  intros Ha. rewrite projection_at_projected by exact Ha.
  destruct (C_eq_dec p C0) as [-> | Hp].
  - exists C0. split.
    + rewrite log_value by lra. rewrite delta_diag, artanh_0 by lra.
      fold C0. f_equal. ring.
    + rewrite exp_zero_in_disk by (rewrite Cabs_0; lra).
      rewrite projected_inside by (rewrite Cabs_0; lra). reflexivity.
  - pose proof (Cabs_pos p Hp) as Hr.
    assert (Hm : 0 < Rmin (Cabs p) (1 - atol) <= 1 - atol).
    { split; [apply Rmin_glb_lt; lra | apply Rmin_r]. }
    eexists. split; [apply log_from_origin; assumption | ].
    rewrite exp_from_origin.
    + rewrite projected_as_scaling by assumption. do 3 f_equal.
      replace (artanh (Rmin (Cabs p) (1 - atol)) / Cabs p * Cabs p)
        with (artanh (Rmin (Cabs p) (1 - atol))) by (field; lra).
      rewrite tanh_artanh by lra. reflexivity.
    + apply Rdiv_lt_0_compat; [apply artanh_pos; lra | exact Hr].
    + exact Hp.
Qed.

Lemma exp_log_at_origin_is_projection_witness :
  exists t,
    log (1 / 10 ^ 12) (3, 4) C0 = Some t /\
    exp t C0 = projection_at (1 / 10 ^ 12) (3, 4).
Proof.
  apply (exp_log_at_origin_is_projection (1 / 10 ^ 12) (3, 4)). lra.
Defined.

(** ** The triangle inequality *)


















(** ** Rotations of the disk *)

Lemma unit_mul_conj (u : C) : Cabs u = 1 -> (u * Cconj u)%C = C1.
Proof.
  intros Hu. rewrite Cmul_conj, <- Cabs_sqr, Hu.
  replace (1 * 1) with 1 by ring. reflexivity.
Qed.

Lemma rotate_one_minus (u a b : C) :
  Cabs u = 1 -> (C1 - u * a * Cconj (u * b))%C = (C1 - a * Cconj b)%C.
Proof.
  intros Hu. rewrite Cconj_mul.
  replace (u * a * (Cconj u * Cconj b))%C with ((u * Cconj u) * (a * Cconj b))%C by ring.
  rewrite unit_mul_conj by exact Hu. ring.
Qed.

Lemma tau_rotation (u a b : C) (atol : R) :
  Cabs u = 1 -> _tau (u * a) (u * b) atol = _tau a b atol.
Proof.
  intros Hu. unfold _tau.
  replace (u * a - u * b)%C with (u * (a - b))%C by ring.
  rewrite Cabs_mul, Hu, Rmult_1_l, rotate_one_minus by exact Hu. reflexivity.
Qed.

Lemma tau_conjugation (a b : C) (atol : R) :
  _tau (Cconj a) (Cconj b) atol = _tau a b atol.
Proof.
  unfold _tau.
  rewrite <- Cconj_sub, Cabs_conj.
  replace (C1 - Cconj a * Cconj (Cconj b))%C with (Cconj (C1 - a * Cconj b))
    by (apply C_eq; simpl; ring).
  rewrite Cabs_conj. reflexivity.
Qed.

(** X21: the distance and the squared distance are invariant under the
    rotations of the plane around the origin and under the complex
    conjugation, for all complex points, scales and tolerances. *)
Theorem dist_rotation_invariant (scale atol : R) (u a b : C) :
  Cabs u = 1 ->
  dist scale (u * a) (u * b) atol = dist scale a b atol /\
  squared_dist scale (u * a) (u * b) atol = squared_dist scale a b atol /\
  dist scale (Cconj a) (Cconj b) atol = dist scale a b atol /\
  squared_dist scale (Cconj a) (Cconj b) atol = squared_dist scale a b atol.
Proof.
  intros Hu. unfold dist, squared_dist.
  rewrite tau_rotation, tau_conjugation by exact Hu. repeat split.
Qed.

Lemma dist_rotation_invariant_witness :
  dist 2 (Ci * (1 / 2, 0)) (Ci * (0, 1 / 3)) (1 / 10 ^ 12) =
    dist 2 (1 / 2, 0) (0, 1 / 3) (1 / 10 ^ 12) /\
  squared_dist 2 (Ci * (1 / 2, 0)) (Ci * (0, 1 / 3)) (1 / 10 ^ 12) =
    squared_dist 2 (1 / 2, 0) (0, 1 / 3) (1 / 10 ^ 12) /\
  dist 2 (Cconj (1 / 2, 0)) (Cconj (0, 1 / 3)) (1 / 10 ^ 12) =
    dist 2 (1 / 2, 0) (0, 1 / 3) (1 / 10 ^ 12) /\
  squared_dist 2 (Cconj (1 / 2, 0)) (Cconj (0, 1 / 3)) (1 / 10 ^ 12) =
    squared_dist 2 (1 / 2, 0) (0, 1 / 3) (1 / 10 ^ 12).
Proof.
  apply (dist_rotation_invariant 2 (1 / 10 ^ 12) Ci (1 / 2, 0) (0, 1 / 3)).
  unfold Ci. rewrite Cabs_imag_pos; lra.
Defined.

Lemma Cmul_neq_0 (z w : C) : z <> C0 -> w <> C0 -> (z * w)%C <> C0.
Proof.
  intros Hz Hw. apply Cabs_neq_0. rewrite Cabs_mul.
  pose proof (Cabs_pos z Hz). pose proof (Cabs_pos w Hw). nra.
Qed.

Lemma exp_value_rotation (u v b : C) (E : R) :
  Cabs u = 1 -> exp_value (u * v) (u * b) E = (u * exp_value v b E)%C.
Proof.
  intros Hu. unfold exp_value.
  replace (Cconj (u * b) * (u * v))%C with (Cconj b * v)%C.
  - unfold Cdiv. ring.
  - rewrite Cconj_mul.
    replace (Cconj u * Cconj b * (u * v))%C with ((u * Cconj u) * (Cconj b * v))%C by ring.
    rewrite unit_mul_conj by exact Hu. ring.
Qed.

(** X22: the exponential map commutes with the rotations around the
    origin: at a base point of the open disk, rotating the base point and
    the tangent vector by the same angle rotates the exponential by that
    angle. *)
Theorem exp_rotation_equivariant (u t b : C) :
  Cabs u = 1 -> Cabs b < 1 ->
  exists p,
    exp t b = Some p /\
    exp (u * t) (u * b) = Some (u * p)%C.
Proof.
  intros Hu Hb.
  assert (Hub : Cabs (u * b) = Cabs b) by (rewrite Cabs_mul, Hu; ring).
  assert (Hu0 : u <> C0) by (apply Cabs_neq_0; lra).
  destruct (C_eq_dec t C0) as [-> | Ht].
  - exists b. split; [apply exp_zero_in_disk, Hb | ].
    replace (u * C0)%C with C0 by ring. apply exp_zero_in_disk. lra.
  - eexists. split; [apply exp_closed_form, Hb | ].
    rewrite exp_closed_form by lra.
    rewrite Hub, (Cabs_mul u t), Hu, Rmult_1_l. f_equal.
    rewrite <- exp_value_rotation by exact Hu. f_equal.
    rewrite !Cexp_i_angle by (auto using Cmul_neq_0).
    rewrite Cabs_mul, Hu, Rmult_1_l. unfold Cdiv. ring.
Qed.

Lemma exp_rotation_equivariant_witness :
  exists p,
    exp (1, 2) (1 / 2, 0) = Some p /\
    exp (Ci * (1, 2)) (Ci * (1 / 2, 0)) = Some (Ci * p)%C.
Proof.
  apply (exp_rotation_equivariant Ci (1, 2) (1 / 2, 0)).
  - unfold Ci. rewrite Cabs_imag_pos; lra.
  - rewrite Cabs_real_pos; lra.
Defined.

(** ** Projection before the metric *)

(** X23: the tolerance of the backend being in (0, 1), the inner-product
    matrix is finite at every projected point, whatever the point was, and
    at most [scale^2 / tol^2]. *)
Theorem inner_product_matrix_after_projection (gs_atol scale : R) (p : C) :
  0 < gs_atol < 1 ->
  exists b m,
    projection_at gs_atol p = Some b /\
    inner_product_matrix scale b = Some (RtoC m) /\
    0 <= m <= scale ^ 2 / gs_atol ^ 2.
Proof.
  intros Ha. pose proof Ha as [H0 H1].
  exists (projected gs_atol p).
  pose proof (Cabs_projected gs_atol p Ha) as Hmod.
  pose proof (Cabs_nonneg (projected gs_atol p)) as Hnn.
  pose proof (Rmin_r (Cabs p) (1 - gs_atol)) as Hmin.
  set (r := Cabs (projected gs_atol p)) in *.
  assert (Hr : r <= 1 - gs_atol) by lra.
  assert (Hbase : gs_atol <= 1 - r ^ 2) by nra.
  exists (scale ^ 2 / (1 - r ^ 2) ^ 2).
  split; [apply projection_at_projected, Ha | ].
  split; [apply inner_product_matrix_value; fold r; lra | ].
  pose proof (sqr_nonneg scale) as Hs.
  assert (Hsq : gs_atol ^ 2 <= (1 - r ^ 2) ^ 2) by nra.
  assert (Hsqpos : 0 < gs_atol ^ 2) by (apply sqr_pos; lra).
  split.
  - apply Rmult_le_pos; [exact Hs | apply Rlt_le, Rinv_0_lt_compat; lra].
  - apply Rmult_le_compat_l; [exact Hs | ].
    apply Rinv_le_contravar; lra.
Qed.

Lemma inner_product_matrix_after_projection_witness :
  exists b m,
    projection_at (1 / 10 ^ 12) (3, 4) = Some b /\
    inner_product_matrix 2 b = Some (RtoC m) /\
    0 <= m <= 2 ^ 2 / (1 / 10 ^ 12) ^ 2.
Proof.
  apply (inner_product_matrix_after_projection (1 / 10 ^ 12) 2 (3, 4)). lra.
Defined.
